(** * Suit recognition: a shallow embedding of [Cards.py]

    The development follows the Python module function by function.
    Images are lists of rows, exceptions are an explicit result type,
    and the objects the code mutates in place ([Query_card],
    [Train_suits], the flag array of [find_cards]) are threaded as
    explicit state.  The OpenCV routines the module calls are taken as
    an interface ([OpenCV]) together with the part of their documented
    contract the module relies on ([OpenCVSpec]). *)

From Stdlib Require Import ZArith QArith Lia.
From stdpp Require Import base list strings.

Open Scope Z_scope.

(** ** Exceptions and the two monads of the embedding *)

Inductive exn : Type :=
  | IndexError
  | TypeError
  | ValueError
  | UnboundLocalError
  | cv2_error.

Inductive res (A : Type) : Type :=
  | Ok (a : A)
  | Raise (e : exn).
Arguments Ok {A} a.
Arguments Raise {A} e.

Definition is_Ok {A} (r : res A) : Prop :=
  match r with Ok _ => True | Raise _ => False end.

#[global] Instance res_ret : MRet res := λ A a, Ok a.
#[global] Instance res_bind : MBind res := λ A B f m,
  match m with Ok a => f a | Raise e => Raise e end.

(** A computation that may raise, over one mutable object of type [S];
    the object's state is returned also when the computation raises. *)
Definition St (S A : Type) : Type := S → res A * S.

#[global] Instance St_ret {S} : MRet (St S) := λ A a s, (Ok a, s).
#[global] Instance St_bind {S} : MBind (St S) := λ A B f m s,
  match m s with
  | (Ok a, s') => f a s'
  | (Raise e, s') => (Raise e, s')
  end.

Definition gets {S A} (f : S → A) : St S A := λ s, (Ok (f s), s).
Definition modify {S} (f : S → S) : St S unit := λ s, (Ok tt, f s).
Definition lift {S A} (r : res A) : St S A := λ s, (r, s).

(** [for x in xs: acc = body(x, acc)] in either monad. *)
Fixpoint for_res {A B} (xs : list B) (body : B → A → res A) (acc : A) : res A :=
  match xs with
  | [] => Ok acc
  | x :: xs' => acc' ← body x acc; for_res xs' body acc'
  end.

Fixpoint for_St {S A B} (xs : list B) (body : B → A → St S A) (acc : A) : St S A :=
  match xs with
  | [] => mret acc
  | x :: xs' => acc' ← body x acc; for_St xs' body acc'
  end.

(** ** Arrays *)

Abbreviation img A := (list (list A)).
Abbreviation Gray := (img Z).
Abbreviation Frame := (img (Z * Z * Z)).

(** [np.shape(a)[:2]]: rows first, then columns. *)
Definition shape {A} (a : img A) : nat * nat :=
  (length a, match a with [] => 0%nat | r :: _ => length r end).

(** Every row has [w] entries and there are [h] rows. *)
Definition rect {A} (h w : nat) (a : img A) : Prop :=
  length a = h ∧ Forall (λ r, length r = w) a.

(** [a[i]] for a non-negative index. *)
Definition getitem {A} (l : list A) (i : nat) : res A :=
  match l !! i with Some x => Ok x | None => Raise IndexError end.

(** [a[lo:hi]]; Python clips a slice to the list, as [take] and [drop] do. *)
Definition slice {A} (lo hi : nat) (l : list A) : list A :=
  take (hi - lo) (drop lo l).

(** [a[r0:r1, c0:c1]] *)
Definition slice2 {A} (r0 r1 c0 c1 : nat) (a : img A) : img A :=
  map (slice c0 c1) (slice r0 r1 a).

Definition np_sum (a : Gray) : Z := foldr Z.add 0 (concat a).

(** [cv2.absdiff(a, b)] on 8-bit images: per-pixel [|a - b|].  OpenCV
    rejects an operand that is not an array ([None]) and operands of
    different sizes. *)
Definition absdiff (a : Gray) (b : option Gray) : res Gray :=
  match b with
  | None => Raise cv2_error
  | Some b =>
      if decide (shape a = shape b)
      then Ok (zip_with (zip_with (λ x y, Z.abs (x - y))) a b)
      else Raise cv2_error
  end.

(** ** Constants *)

Definition BKG_THRESH : Z := 60.
Definition CARD_THRESH : Z := 30.
Definition CORNER_WIDTH : nat := 32.
Definition CORNER_HEIGHT : nat := 84.
Definition SUIT_WIDTH : nat := 70.
Definition SUIT_HEIGHT : nat := 100.
Definition SUIT_DIFF_MAX : Z := 700.
Definition CARD_MAX_AREA : Q := 120000%Q.
Definition CARD_MIN_AREA : Q := 25000%Q.

(** ** Structures *)

Abbreviation Pt := (Z * Z)%type.
Abbreviation Contour := (list Pt).

Record Query_card : Type := mkQuery_card {
  contour : Contour;
  width : Z;
  height : Z;
  corner_pts : list Pt;
  center : list Z;
  warp : Gray;
  suit_img : Gray;
  best_suit_match : string;
  suit_diff : Z
}.

(** [Query_card()] *)
Definition Query_card_init : Query_card :=
  mkQuery_card [] 0 0 [] [] [] [] "Unknown" 0.

Definition set_contour (v : Contour) (q : Query_card) : Query_card :=
  mkQuery_card v (width q) (height q) (corner_pts q) (center q) (warp q)
    (suit_img q) (best_suit_match q) (suit_diff q).
Definition set_width_height (w h : Z) (q : Query_card) : Query_card :=
  mkQuery_card (contour q) w h (corner_pts q) (center q) (warp q)
    (suit_img q) (best_suit_match q) (suit_diff q).
Definition set_corner_pts (v : list Pt) (q : Query_card) : Query_card :=
  mkQuery_card (contour q) (width q) (height q) v (center q) (warp q)
    (suit_img q) (best_suit_match q) (suit_diff q).
Definition set_center (v : list Z) (q : Query_card) : Query_card :=
  mkQuery_card (contour q) (width q) (height q) (corner_pts q) v (warp q)
    (suit_img q) (best_suit_match q) (suit_diff q).
Definition set_warp (v : Gray) (q : Query_card) : Query_card :=
  mkQuery_card (contour q) (width q) (height q) (corner_pts q) (center q) v
    (suit_img q) (best_suit_match q) (suit_diff q).
Definition set_suit_img (v : Gray) (q : Query_card) : Query_card :=
  mkQuery_card (contour q) (width q) (height q) (corner_pts q) (center q)
    (warp q) v (best_suit_match q) (suit_diff q).

(** The image is what [cv2.imread] returned: [None] when the file could
    not be read. *)
Record Train_suits : Type := mkTrain_suits {
  img_of : option Gray;
  name : string
}.

(** [Train_suits()] *)
Definition Train_suits_init : Train_suits := mkTrain_suits (Some []) "Placeholder".

Definition set_name (v : string) (t : Train_suits) : Train_suits :=
  mkTrain_suits (img_of t) v.
Definition set_img (v : option Gray) (t : Train_suits) : Train_suits :=
  mkTrain_suits v (name t).

(** [l[i].field = v]: the element is looked up first, so an index out of
    range raises. *)
Definition setattr_at {A} (l : list A) (i : nat) (f : A → A) : res (list A) :=
  x ← getitem l i; Ok (<[i := f x]> l).

(** ** [load_suits] *)

Definition suit_names : list string := ["Spades"; "Diamonds"; "Clubs"; "Hearts"].

Definition load_suits (imread : string → option Gray) (filepath : string)
  : res (list Train_suits) :=
  '(train_suits, _) ←
    for_res suit_names (λ Suit '(train_suits, i),
      let train_suits := train_suits ++ [Train_suits_init] in
      train_suits ← setattr_at train_suits i (set_name Suit);
      let filename := Suit +:+ ".jpg" in
      train_suits ← setattr_at train_suits i (set_img (imread (filepath +:+ filename)));
      Ok (train_suits, S i)) ([], 0%nat);
  Ok train_suits.

(** ** [match_card] *)

(** One pass of the loop body over the running best
    [(best_suit_match_diff, best_suit_name)]; [best_suit_name] is unbound
    ([None]) until a template improves on the initial 10000.
    [np.sum(diff_img)/255] is a float division of an integer below 2^53
    by 255, so [int] of it is the integer quotient. *)
Definition match_step (Tsuit : Train_suits) (best : Z * option string)
  : St Query_card (Z * option string) :=
  q_img ← gets suit_img;
  diff_img ← lift (absdiff q_img (img_of Tsuit));
  let suit_diff := Z.quot (np_sum diff_img) 255 in
  if suit_diff <? best.1
  then mret (suit_diff, Some (name Tsuit))
  else mret best.

Definition match_card_body (train_suits : list Train_suits)
  : St Query_card (string * Z) :=
  let best_suit_match_diff := 10000 in
  let best_suit_match_name := "Unknown" in
  q_img ← gets suit_img;
  '(best_suit_match_diff, best_suit_name) ←
    (if decide (length q_img ≠ 0%nat)
     then for_St train_suits match_step (best_suit_match_diff, None)
     else mret (best_suit_match_diff, None));
  best_suit_match_name ←
    (if best_suit_match_diff <? SUIT_DIFF_MAX
     then match best_suit_name with
          | Some n => mret n
          | None => lift (Raise UnboundLocalError)
          end
     else mret best_suit_match_name);
  mret (best_suit_match_name, best_suit_match_diff).

(** The call [match_card(qCard, train_suits)]: its outcome and the state
    of the [qCard] object afterwards. *)
Definition match_card (qCard : Query_card) (train_suits : list Train_suits)
  : res (string * Z) * Query_card :=
  match_card_body train_suits qCard.

(** ** The OpenCV routines used by the module *)

Inductive thresh_type : Type := THRESH_BINARY | THRESH_BINARY_INV.

(** One row of the hierarchy array: [next, previous, first_child, parent]. *)
Record Hier : Type := mkHier {
  h_next : Z;
  h_prev : Z;
  h_child : Z;
  h_parent : Z
}.

Class OpenCV : Type := {
  Mat : Type;
  (** [cvtColor(_, COLOR_BGR2GRAY)] *)
  cvtColor : Frame → Gray;
  (** [GaussianBlur(_, (5,5), 0)] *)
  GaussianBlur : Gray → Gray;
  (** [threshold(src, thresh, maxval, type)[1]] *)
  threshold : Gray → Z → Z → thresh_type → Gray;
  (** [findContours(_, RETR_TREE, CHAIN_APPROX_SIMPLE)[1:]]; the hierarchy
      is [None] when there is no contour, else [hier[0]] is the list. *)
  findContours : Gray → list Contour * option (list Hier);
  contourArea : Contour → Q;
  arcLength : Contour → bool → Q;
  approxPolyDP : Contour → Q → bool → Contour;
  (** [(x, y, w, h)] *)
  boundingRect : Contour → Z * Z * Z * Z;
  getPerspectiveTransform : list Pt → list Pt → Mat;
  (** [warpPerspective(src, M, (width, height))] *)
  warpPerspective : Frame → Mat → nat * nat → Frame;
  (** [resize(src, (0,0), fx=_, fy=_)] *)
  resize_by : Gray → nat → nat → res Gray;
  (** [resize(src, (width, height), 0, 0)] *)
  resize_to : Gray → nat * nat → res Gray
}.

(** What the module relies on from these routines. *)
Record OpenCVSpec (cv : OpenCV) : Prop := {
  findContours_hier : ∀ m cnts hier,
    findContours m = (cnts, hier) → cnts ≠ [] →
    ∃ h, hier = Some h ∧ length h = length cnts;
  boundingRect_inside : ∀ m c rows cols,
    rect rows cols m → c ∈ (findContours m).1 →
    match boundingRect c with
    | (x, y, w, h) =>
        0 ≤ x ∧ 0 ≤ y ∧ 0 < w ∧ 0 < h ∧
        x + w ≤ Z.of_nat cols ∧ y + h ≤ Z.of_nat rows
    end;
  cvtColor_rect : ∀ f rows cols, rect rows cols f → rect rows cols (cvtColor f);
  threshold_rect : ∀ a t mx ty rows cols,
    rect rows cols a → rect rows cols (threshold a t mx ty);
  warpPerspective_rect : ∀ f M w h, rect h w (warpPerspective f M (w, h));
  resize_by_rect : ∀ a fx fy rows cols,
    rect rows cols a → (0 < rows)%nat → (0 < cols)%nat →
    (0 < fx)%nat → (0 < fy)%nat →
    ∃ b, resize_by a fx fy = Ok b ∧ rect (fy * rows) (fx * cols) b;
  resize_to_rect : ∀ a w h rows cols,
    rect rows cols a → (0 < rows)%nat → (0 < cols)%nat →
    (0 < w)%nat → (0 < h)%nat →
    ∃ b, resize_to a (w, h) = Ok b ∧ rect h w b
}.

Definition Qltb (x y : Q) : bool :=
  match (x ?= y)%Q with Lt => true | _ => false end.

(** [sorted(_, key=key, reverse=True)]: descending, and stable (equal
    keys keep their original order). *)
Fixpoint insert_desc {A} (key : A → Q) (x : A) (l : list A) : list A :=
  match l with
  | [] => [x]
  | y :: l' =>
      if Qle_bool (key y) (key x) then x :: l else y :: insert_desc key x l'
  end.

Definition sorted_reverse {A} (key : A → Q) (l : list A) : list A :=
  foldr (insert_desc key) [] l.

(** [np.argmin] and [np.argmax]: the first index of an extremal entry. *)
Fixpoint argmin_from (best_i : nat) (best : Z) (i : nat) (l : list Z) : nat :=
  match l with
  | [] => best_i
  | x :: l' =>
      if x <? best then argmin_from i x (S i) l'
      else argmin_from best_i best (S i) l'
  end.

Definition argmin (l : list Z) : res nat :=
  match l with
  | [] => Raise ValueError
  | x :: l' => Ok (argmin_from 0 x 1 l')
  end.

Fixpoint argmax_from (best_i : nat) (best : Z) (i : nat) (l : list Z) : nat :=
  match l with
  | [] => best_i
  | x :: l' =>
      if best <? x then argmax_from i x (S i) l'
      else argmax_from best_i best (S i) l'
  end.

Definition argmax (l : list Z) : res nat :=
  match l with
  | [] => Raise ValueError
  | x :: l' => Ok (argmax_from 0 x 1 l')
  end.

(** The local threshold of [preprocess_card] (lines 167-169).  The
    sampled pixel is an 8-bit scalar and [CARD_THRESH] a Python integer;
    the sum is formed in a signed 64-bit integer, so the difference can
    be negative and does not wrap. *)
Definition card_thresh_level (white_level : Z) : Z :=
  let thresh_level := white_level - CARD_THRESH in
  if thresh_level <=? 0 then 1 else thresh_level.

Section Pipeline.
Context {cv : OpenCV}.

(** ** [preprocess_image] *)

Definition preprocess_image (image : Frame) : res Gray :=
  let gray := cvtColor image in
  let blur := GaussianBlur gray in
  let '(img_w, img_h) := shape image in
  row ← getitem gray (img_h / 100)%nat;
  bkg_level ← getitem row (img_w / 2)%nat;
  let thresh_level := bkg_level + BKG_THRESH in
  Ok (threshold blur thresh_level 255 THRESH_BINARY).

(** ** [find_cards] *)

(** The test of line 127 on one contour and its hierarchy row. *)
Definition card_test (c : Contour) (h : Hier) : bool :=
  let size := contourArea c in
  let peri := arcLength c true in
  let approx := approxPolyDP c (0.01 * peri)%Q true in
  Qltb size CARD_MAX_AREA && Qltb CARD_MIN_AREA size
  && (h_parent h =? -1) && (length approx =? 4)%nat.

(** The body of the second loop: [and] evaluates [hier_sort[i]] only
    when the two area tests passed. *)
Definition is_card_at (cnts_sort : list Contour) (hier_sort : list Hier) (i : nat)
  : res bool :=
  c ← getitem cnts_sort i;
  let size := contourArea c in
  c ← getitem cnts_sort i;
  let peri := arcLength c true in
  c ← getitem cnts_sort i;
  let approx := approxPolyDP c (0.01 * peri)%Q true in
  if Qltb size CARD_MAX_AREA && Qltb CARD_MIN_AREA size
  then h ← getitem hier_sort i;
       Ok ((h_parent h =? -1) && (length approx =? 4)%nat)
  else Ok false.

Definition flag_step (cnts_sort : list Contour) (hier_sort : list Hier)
  (i : nat) (cnt_is_card : list Z) : res (list Z) :=
  b ← is_card_at cnts_sort hier_sort i;
  if (b : bool) then Ok (<[i := 1]> cnt_is_card) else Ok cnt_is_card.

(** The body of the first loop: [hier[0][i]] fails on a hierarchy that
    is [None]. *)
Definition gather_step (cnts : list Contour) (hier : option (list Hier))
  (i : nat) (acc : list Contour * list Hier) : res (list Contour * list Hier) :=
  let '(cnts_sort, hier_sort) := acc in
  c ← getitem cnts i;
  hier0 ← match hier with Some h => Ok h | None => Raise TypeError end;
  h ← getitem hier0 i;
  Ok (cnts_sort ++ [c], hier_sort ++ [h]).

Definition index_sort (cnts : list Contour) : list nat :=
  sorted_reverse (λ i, contourArea (default [] (cnts !! i))) (seq 0 (length cnts)).

Definition find_cards (thresh_image : Gray) : res (list Contour * list Z) :=
  let '(cnts, hier) := findContours thresh_image in
  let index_sort := index_sort cnts in
  if decide (length cnts = 0%nat) then Ok ([], []) else
  let cnt_is_card := replicate (length cnts) 0 in
  '(cnts_sort, hier_sort) ← for_res index_sort (gather_step cnts hier) ([], []);
  cnt_is_card ←
    for_res (seq 0 (length cnts_sort)) (flag_step cnts_sort hier_sort) cnt_is_card;
  Ok (cnts_sort, cnt_is_card).

(** ** [flattener] *)

(** Lines 258-265: the extremal points [(tl, tr, br, bl)].  [np.diff]
    along the last axis of a point [x, y] is [y - x]. *)
Definition corners (pts : list Pt) : res (Pt * Pt * Pt * Pt) :=
  let s := map (λ p : Pt, p.1 + p.2) pts in
  i ← argmin s; tl ← getitem pts i;
  i ← argmax s; br ← getitem pts i;
  let diff := map (λ p : Pt, p.2 - p.1) pts in
  i ← argmin diff; tr ← getitem pts i;
  i ← argmax diff; bl ← getitem pts i;
  Ok (tl, tr, br, bl).

(** [temp_rect[0], ..., temp_rect[3] = a, b, c, d] *)
Definition assign4 (a b c d : Pt) (temp_rect : list Pt) : list Pt :=
  <[3%nat := d]> (<[2%nat := c]> (<[1%nat := b]> (<[0%nat := a]> temp_rect))).

(** The ordered source quadrilateral [temp_rect] (lines 256-306).  [w]
    and [h] are integers, so [w <= 0.8*h] and [w >= 1.2*h] are the exact
    comparisons [5w <= 4h] and [5w >= 6h]: the rounded products differ
    from an integer by far less than the next integer does. *)
Definition temp_rect (pts : list Pt) (w h : Z) : res (list Pt) :=
  let temp_rect := replicate 4 (0, 0) in
  '(tl, tr, br, bl) ← corners pts;
  let temp_rect :=
    if 5 * w <=? 4 * h then assign4 tl tr br bl temp_rect else temp_rect in
  let temp_rect :=
    if 6 * h <=? 5 * w then assign4 bl tl tr br temp_rect else temp_rect in
  if (4 * h <? 5 * w) && (5 * w <? 6 * h)
  then
    p1 ← getitem pts 1; p3 ← getitem pts 3;
    temp_rect ←
      (if p1.2 <=? p3.2
       then a ← getitem pts 1; b ← getitem pts 0;
            c ← getitem pts 3; d ← getitem pts 2;
            Ok (assign4 a b c d temp_rect)
       else Ok temp_rect);
    p1 ← getitem pts 1; p3 ← getitem pts 3;
    (if p3.2 <? p1.2
     then a ← getitem pts 0; b ← getitem pts 3;
          c ← getitem pts 2; d ← getitem pts 1;
          Ok (assign4 a b c d temp_rect)
     else Ok temp_rect)
  else Ok temp_rect.

Definition maxWidth : nat := 200.
Definition maxHeight : nat := 300.

Definition flattener (image : Frame) (pts : list Pt) (w h : Z) : res Gray :=
  temp_rect ← temp_rect pts w h;
  let dst := [(0, 0); (Z.of_nat maxWidth - 1, 0);
              (Z.of_nat maxWidth - 1, Z.of_nat maxHeight - 1);
              (0, Z.of_nat maxHeight - 1)] in
  let M := getPerspectiveTransform temp_rect dst in
  let warp := warpPerspective image M (maxWidth, maxHeight) in
  Ok (cvtColor warp).

(** ** [preprocess_card] *)

(** Lines 162-170: the zoomed corner, thresholded at the local level. *)
Definition query_thresh (warp : Gray) : res Gray :=
  let Qcorner := slice2 0 CORNER_HEIGHT 0 CORNER_WIDTH warp in
  Qcorner_zoom ← resize_by Qcorner 4 4;
  row ← getitem Qcorner_zoom 15;
  white_level ← getitem row ((CORNER_WIDTH * 4) / 2)%nat;
  let thresh_level := card_thresh_level white_level in
  Ok (threshold Qcorner_zoom thresh_level 255 THRESH_BINARY_INV).

(** Lines 174-186: the sized suit glyph, or [None] when the suit band
    holds no contour.  ([Qrank] is cut but not used.) *)
Definition Qsuit_sized (query_thresh : Gray) : res (option Gray) :=
  let Qrank := slice2 20 185 0 128 query_thresh in
  let Qsuit := slice2 186 336 0 128 query_thresh in
  let '(Qsuit_cnts, hier) := findContours Qsuit in
  let Qsuit_cnts := sorted_reverse contourArea Qsuit_cnts in
  if decide (length Qsuit_cnts ≠ 0%nat)
  then
    c ← getitem Qsuit_cnts 0;
    let '(x2, y2, w2, h2) := boundingRect c in
    let Qsuit_roi :=
      slice2 (Z.to_nat y2) (Z.to_nat (y2 + h2)) (Z.to_nat x2) (Z.to_nat (x2 + w2)) Qsuit in
    sized ← resize_to Qsuit_roi (SUIT_WIDTH, SUIT_HEIGHT);
    Ok (Some sized)
  else Ok None.

Definition preprocess_card_body (contour : Contour) (image : Frame)
  : St Query_card unit :=
  _ ← modify (set_contour contour);
  let peri := arcLength contour true in
  let approx := approxPolyDP contour (0.01 * peri)%Q true in
  let pts := approx in
  _ ← modify (set_corner_pts pts);
  let '(x, y, w, h) := boundingRect contour in
  _ ← modify (set_width_height w h);
  (* np.sum(pts, axis=0)/len(pts): dividing by zero yields NaN, which
     [int] rejects *)
  _ ← lift (if decide (length pts = 0%nat) then Raise ValueError else Ok tt);
  let cent_x := Z.quot (foldr Z.add 0 (map fst pts)) (Z.of_nat (length pts)) in
  let cent_y := Z.quot (foldr Z.add 0 (map snd pts)) (Z.of_nat (length pts)) in
  _ ← modify (set_center [cent_x; cent_y]);
  warped ← lift (flattener image pts w h);
  _ ← modify (set_warp warped);
  q_warp ← gets warp;
  qt ← lift (query_thresh q_warp);
  sized ← lift (Qsuit_sized qt);
  match sized with
  | Some g => modify (set_suit_img g)
  | None => mret tt
  end.

(** [qCard = Query_card(); ...; return qCard] *)
Definition preprocess_card (contour : Contour) (image : Frame) : res Query_card :=
  match preprocess_card_body contour image Query_card_init with
  | (Ok _, qCard) => Ok qCard
  | (Raise e, _) => Raise e
  end.

End Pipeline.

(** ** A reference instance of the OpenCV interface

    Each routine in a simple executable form, so that the pipeline can
    be run on concrete frames: the fixed-point grey conversion, the 5x5
    binomial blur with mirrored borders, per-pixel thresholding, the
    shoelace area, nearest-neighbour resizing.  Contour extraction is
    reduced to a single outer contour around a frame that has any
    foreground, and polygon simplification keeps every vertex. *)
Module RefCV.

Definition gray_px (p : Z * Z * Z) : Z :=
  let '(b, g, r) := p in Z.shiftr (b * 1868 + g * 9617 + r * 4899 + 8192) 14.

Definition cvtColor (f : Frame) : Gray := map (map gray_px) f.

(** Border mode [BORDER_REFLECT_101]: [... c b | a b c ... x y z | y x ...]. *)
Definition reflect101 (n : nat) (i : Z) : nat :=
  let m := Z.of_nat n - 1 in
  let j := if i <? 0 then - i else if m <? i then 2 * m - i else i in
  Z.to_nat (Z.max 0 (Z.min m j)).

Definition px (a : Gray) (r c : Z) : Z :=
  let row := default [] (a !! reflect101 (length a) r) in
  default 0 (row !! reflect101 (length row) c).

Definition kernel5 : list (Z * Z) := [(-2, 1); (-1, 4); (0, 6); (1, 4); (2, 1)].

Definition blur_px (a : Gray) (r c : Z) : Z :=
  let acc :=
    foldr (λ '(dr, kr) acc,
      foldr (λ '(dc, kc) acc, acc + kr * kc * px a (r + dr) (c + dc)) acc kernel5)
      0 kernel5 in
  (acc + 128) / 256.

Definition GaussianBlur (a : Gray) : Gray :=
  imap (λ r row, imap (λ c _, blur_px a (Z.of_nat r) (Z.of_nat c)) row) a.

Definition threshold (a : Gray) (t mx : Z) (ty : thresh_type) : Gray :=
  map (map (λ p,
    match ty with
    | THRESH_BINARY => if t <? p then mx else 0
    | THRESH_BINARY_INV => if t <? p then 0 else mx
    end)) a.

Definition frame_contour (rows cols : nat) : Contour :=
  [(0, 0); (0, Z.of_nat rows - 1);
   (Z.of_nat cols - 1, Z.of_nat rows - 1); (Z.of_nat cols - 1, 0)].

Definition findContours (m : Gray) : list Contour * option (list Hier) :=
  match m with
  | (p :: r) :: m' =>
      if existsb (λ x, negb (x =? 0)) (concat m)
      then ([frame_contour (length m) (length (p :: r))],
            Some [mkHier (-1) (-1) (-1) (-1)])
      else ([], None)
  | _ => ([], None)
  end.

(** Twice the signed area, by the shoelace formula over the closed polygon. *)
Fixpoint shoelace (first prev : Pt) (c : list Pt) : Z :=
  match c with
  | [] => prev.1 * first.2 - first.1 * prev.2
  | p :: c' => prev.1 * p.2 - p.1 * prev.2 + shoelace first p c'
  end.

Definition contourArea (c : Contour) : Q :=
  match c with
  | [] => 0%Q
  | p :: c' => (Z.abs (shoelace p p c') # 2)%Q
  end.

Definition side (p q : Pt) : Z :=
  Z.sqrt ((q.1 - p.1) * (q.1 - p.1) + (q.2 - p.2) * (q.2 - p.2)).

Fixpoint path_length (first prev : Pt) (closed : bool) (c : list Pt) : Z :=
  match c with
  | [] => if closed then side prev first else 0
  | p :: c' => side prev p + path_length first p closed c'
  end.

Definition arcLength (c : Contour) (closed : bool) : Q :=
  match c with
  | [] => 0%Q
  | p :: c' => inject_Z (path_length p p closed c')
  end.

Definition approxPolyDP (c : Contour) (epsilon : Q) (closed : bool) : Contour := c.

Definition boundingRect (c : Contour) : Z * Z * Z * Z :=
  match c with
  | [] => (0, 0, 0, 0)
  | p :: c' =>
      let x0 := foldr (λ q : Pt, Z.min q.1) p.1 c' in
      let x1 := foldr (λ q : Pt, Z.max q.1) p.1 c' in
      let y0 := foldr (λ q : Pt, Z.min q.2) p.2 c' in
      let y1 := foldr (λ q : Pt, Z.max q.2) p.2 c' in
      (x0, y0, x1 - x0 + 1, y1 - y0 + 1)
  end.

(** The matrix is represented by the source quadrilateral; the warp
    copies the frame from its first corner on. *)
Definition warpPerspective (f : Frame) (M : list Pt) (dsize : nat * nat) : Frame :=
  let '(w, h) := dsize in
  let o := default (0, 0) (M !! 0%nat) in
  map (λ v, map (λ u,
    default (0, 0, 0)
      (default [] (f !! Z.to_nat (o.2 + Z.of_nat v)) !! Z.to_nat (o.1 + Z.of_nat u)))
    (seq 0 w)) (seq 0 h).

Definition is_empty {A} (a : img A) : bool :=
  match shape a with
  | (O, _) | (_, O) => true
  | _ => false
  end.

Definition resize_by (a : Gray) (fx fy : nat) : res Gray :=
  if is_empty a || (fx =? 0)%nat || (fy =? 0)%nat then Raise cv2_error
  else Ok (concat (map (λ row, replicate fy (concat (map (replicate fx) row))) a)).

Definition resize_to (a : Gray) (dsize : nat * nat) : res Gray :=
  let '(w, h) := dsize in
  let '(rows, cols) := shape a in
  if is_empty a || (w =? 0)%nat || (h =? 0)%nat then Raise cv2_error
  else Ok (map (λ r, map (λ c,
         default 0 (default [] (a !! (r * rows / h)%nat) !! (c * cols / w)%nat))
         (seq 0 w)) (seq 0 h)).

#[export] Instance cv : OpenCV :=
  Build_OpenCV (list Pt) cvtColor GaussianBlur threshold findContours
    contourArea arcLength approxPolyDP boundingRect (λ src dst, src)
    warpPerspective resize_by resize_to.

End RefCV.

(** ** Vocabulary of the statements *)

(** A computation that leaves the object as it found it, also on the
    paths that raise. *)
Definition read_only {S A} (m : St S A) : Prop := ∀ s, (m s).2 = s.

(** The score of line 210 for one template: 0 stands in where
    [absdiff] raises. *)
Definition Tsuit_diff (glyph : Gray) (Tsuit : Train_suits) : Z :=
  match absdiff glyph (img_of Tsuit) with
  | Ok diff_img => Z.quot (np_sum diff_img) 255
  | Raise _ => 0
  end.

Definition byte_img (a : Gray) : Prop :=
  Forall (Forall (λ p, 0 ≤ p ≤ 255)) a.

(** An 8-bit image of the canonical glyph size, 70 wide and 100 high. *)
Definition canonical (a : Gray) : Prop :=
  rect SUIT_HEIGHT SUIT_WIDTH a ∧ byte_img a.

Definition loaded (Tsuit : Train_suits) : Prop :=
  ∃ t, img_of Tsuit = Some t ∧ canonical t.

Definition labels : list string := suit_names ++ ["Unknown"].

(** Uniform test images. *)
Definition flat {A} (rows cols : nat) (v : A) : img A :=
  replicate rows (replicate cols v).

(** [flat] with the pixel at row 0, column 0 replaced. *)
Definition dotted (rows cols : nat) (v dot : Z) : Gray :=
  <[0%nat := <[0%nat := dot]> (replicate cols v)]> (flat rows cols v).

Definition card_with (glyph : Gray) : Query_card :=
  set_suit_img glyph Query_card_init.

(** The loop of [match_card] as a left fold over the templates: the
    running best is replaced only by a strictly smaller score. *)
Definition better (glyph : Gray) (best : Z * option string) (Tsuit : Train_suits)
  : Z * option string :=
  if Tsuit_diff glyph Tsuit <? best.1
  then (Tsuit_diff glyph Tsuit, Some (name Tsuit))
  else best.

Definition running_best (glyph : Gray) (ts : list Train_suits)
  (best : Z * option string) : Z * option string :=
  foldl (better glyph) best ts.

(** ** Concrete cards and template sets *)

Definition blank_glyph : Gray := flat SUIT_HEIGHT SUIT_WIDTH 0.

(** Four templates of the canonical size: Spades differs from the blank
    glyph by one intensity step in one pixel, Diamonds is the blank glyph
    itself, Clubs and Hearts are bright. *)
Definition near_blank_suits : list Train_suits :=
  [ mkTrain_suits (Some (dotted SUIT_HEIGHT SUIT_WIDTH 0 1)) "Spades";
    mkTrain_suits (Some blank_glyph) "Diamonds";
    mkTrain_suits (Some (flat SUIT_HEIGHT SUIT_WIDTH 255)) "Clubs";
    mkTrain_suits (Some (dotted SUIT_HEIGHT SUIT_WIDTH 255 254)) "Hearts" ].

(** A directory without any template file. *)
Definition no_files : string → option Gray := λ _, None.

(** The cutoff as the specification words it: the smoothed intensity at
    row H/100 and column W/2 of an H-by-W frame, plus 60. *)
Definition spec_thresh_level `{OpenCV} (image : Frame) : res Z :=
  let blur := GaussianBlur (cvtColor image) in
  let '(H, W) := shape image in
  row ← getitem blur (H / 100)%nat;
  level ← getitem row (W / 2)%nat;
  Ok (level + BKG_THRESH).

(** A bright 5x5 frame with one black pixel at the top centre. *)
Definition dark_spot_frame : Frame :=
  <[0%nat := <[2%nat := (0, 0, 0)]> (replicate 5 (255, 255, 255))]>
    (flat 5 5 (255, 255, 255)).

(** The card criterion in the words of the specification. *)
Definition card_candidate `{OpenCV} (c : Contour) (h : Hier) : Prop :=
  (CARD_MIN_AREA < contourArea c)%Q ∧ (contourArea c < CARD_MAX_AREA)%Q ∧
  h_parent h = -1 ∧
  length (approxPolyDP c (0.01 * arcLength c true)%Q true) = 4%nat.

(** A white mask, 160 wide and 220 high, and the same as a colour frame. *)
Definition card_mask : Gray := flat 220 160 255.
Definition card_frame : Frame := flat 220 160 (255, 255, 255).
Definition card_contour : Contour := RefCV.frame_contour 220 160.

(** [p] is the first point of [pts] at which [f] is least (greatest). *)
Definition first_min (f : Pt → Z) (pts : list Pt) (p : Pt) : Prop :=
  ∃ i, pts !! i = Some p ∧
    (∀ j q, pts !! j = Some q → f p ≤ f q) ∧
    (∀ j q, (j < i)%nat → pts !! j = Some q → f p < f q).

Definition first_max (f : Pt → Z) (pts : list Pt) (p : Pt) : Prop :=
  ∃ i, pts !! i = Some p ∧
    (∀ j q, pts !! j = Some q → f q ≤ f p) ∧
    (∀ j q, (j < i)%nat → pts !! j = Some q → f q < f p).

(** Quarter turns of the image plane.  [rot90 a b] turns about the
    centre [((a - b)/2, (a + b)/2)]; two of them make the half turn
    [(x, y) -> (a - b - x, a + b - y)] about the same centre. *)
Definition rot90 (a b : Z) (p : Pt) : Pt := (a - p.2, b + p.1).
Definition rot180 (a b : Z) (p : Pt) : Pt := rot90 a b (rot90 a b p).
Definition rot270 (a b : Z) (p : Pt) : Pt := rot90 a b (rot180 a b p).

(** Rotation consistency as the specification words it: the rotated
    corners are given the roles their originals had. *)
Definition same_roles (r : Pt → Pt) (pts : list Pt) (w h w' h' : Z) : Prop :=
  ∃ quad, temp_rect pts w h = Ok quad ∧
          temp_rect (map r pts) w' h' = Ok (map r quad).

(** An upright card, corners in the order the contour tracer emits them. *)
Definition upright_card : list Pt := [(0, 0); (0, 299); (199, 299); (199, 0)].

(** A directory in which every template file holds the blank glyph. *)
Definition blank_files : string → option Gray := λ _, Some blank_glyph.

(** ** Proof automation *)

Create HintDb frame.

(** Splits a lookup in a list literal into its positions. *)
Ltac each_lookup :=
  repeat match goal with
  | H : (_ :: _) !! ?j = Some _ |- _ =>
      destruct j; simpl in H; [inversion H; subst; clear H|]
  | H : [] !! _ = Some _ |- _ => inversion H
  end.


(** * The rest of the module *)

From Stdlib Require Import Sorted.

(** ** [draw_results] *)

Inductive font_face : Type := FONT_HERSHEY_DUPLEX.
Inductive line_type : Type := LINE_AA.

(** [font = cv2.FONT_HERSHEY_DUPLEX] *)
Definition font : font_face := FONT_HERSHEY_DUPLEX.

(** The two drawing routines.  OpenCV draws into the array it is given
    and returns it; here the drawn image is the result. *)
Class Drawing : Type := {
  (** [cv2.circle(img, center, radius, color, thickness)] *)
  circle : Frame → Z * Z → Z → Z * Z * Z → Z → Frame;
  (** [cv2.putText(img, text, org, fontFace, fontScale, color, thickness, lineType)] *)
  putText : Frame → string → Z * Z → font_face → Z → Z * Z * Z → Z → line_type → Frame
}.

Definition draw_results `{Drawing} (image : Frame) (qCard : Query_card) : res Frame :=
  x ← getitem (center qCard) 0;
  y ← getitem (center qCard) 1;
  let image := circle image (x, y) 5 (255, 0, 0) (-1) in
  let suit_name := best_suit_match qCard in
  let image := putText image suit_name (x - 60, y + 25) font 1 (0, 0, 0) 3 LINE_AA in
  let image := putText image suit_name (x - 60, y + 25) font 1 (50, 200, 200) 2 LINE_AA in
  Ok image.

(** A canvas that draws nothing, to run [draw_results]. *)
Definition no_drawing : Drawing :=
  Build_Drawing (λ image _ _ _ _, image) (λ image _ _ _ _ _ _ _, image).

(** ** [Rank_Suit_Isolator.py]: one captured frame *)

Section Isolator.
Context {cv : OpenCV}.

(** Lines 75-80: the suit band of the thresholded corner, its largest
    contour, the crop and the resize.  [suit_cnts[0]] is not guarded. *)
Definition isolate_suit_band (corner_thresh : Gray) : res Gray :=
  let suit := slice2 186 336 0 128 corner_thresh in
  let '(suit_cnts, hier) := findContours suit in
  let suit_cnts := sorted_reverse contourArea suit_cnts in
  c ← getitem suit_cnts 0;
  let '(x, y, w, h) := boundingRect c in
  let suit_roi :=
    slice2 (Z.to_nat y) (Z.to_nat (y + h)) (Z.to_nat x) (Z.to_nat (x + w)) suit in
  resize_to suit_roi (SUIT_WIDTH, SUIT_HEIGHT).

(** Lines 39-81, the work done on the frame [image] taken when "p" is
    pressed: the image that would be shown and saved, or [None] when the
    script prints "No contours found!" and quits.  The camera loop, the
    windows and the file written are outside the embedding. *)
Definition isolate (image : Frame) : res (option Gray) :=
  let gray := cvtColor image in
  let blur := GaussianBlur gray in
  let thresh := threshold blur 100 255 THRESH_BINARY in
  let '(cnts, hier) := findContours thresh in
  let cnts := sorted_reverse contourArea cnts in
  if decide (length cnts = 0%nat) then Ok None else
  card ← getitem cnts 0;
  let peri := arcLength card true in
  let approx := approxPolyDP card (0.01 * peri)%Q true in
  let pts := approx in
  let '(x, y, w, h) := boundingRect card in
  warped ← flattener image pts w h;
  let corner := slice2 0 84 0 32 warped in
  corner_zoom ← resize_by corner 4 4;
  let corner_blur := GaussianBlur corner_zoom in
  let corner_thresh := threshold corner_blur 155 255 THRESH_BINARY_INV in
  final_img ← isolate_suit_band corner_thresh;
  Ok (Some final_img).

End Isolator.

(** ** Vocabulary of the further statements *)

(** [i] is listed before [j]: its key is larger, or equal with [i] the
    earlier index. *)
Definition before (key : nat → Q) (i j : nat) : Prop :=
  (key j < key i)%Q ∨ ((key j == key i)%Q ∧ (i < j)%nat).

(** The least template score, capped by [b]. *)
Definition least (glyph : Gray) (ts : list Train_suits) (b : Z) : Z :=
  foldr (λ T m, Z.min (Tsuit_diff glyph T) m) b ts.

(** The template is an image of the glyph's shape. *)
Definition fits (glyph : Gray) (Tsuit : Train_suits) : Prop :=
  ∃ t, img_of Tsuit = Some t ∧ shape glyph = shape t.

(** The four corners of an axis-aligned rectangle, clockwise from the
    top left as seen in the image. *)
Definition box (x0 y0 x1 y1 : Z) : list Pt :=
  [(x0, y0); (x1, y0); (x1, y1); (x0, y1)].

(** The bounding box is neither portrait nor landscape. *)
Definition diamond (w h : Z) : Prop := 4 * h < 5 * w ∧ 5 * w < 6 * h.

(** Two contours of areas 1 and 4. *)
Definition small_contour : Contour := RefCV.frame_contour 2 2.
Definition large_contour : Contour := RefCV.frame_contour 3 3.

(** Smoothing keeps the size of the image. *)
Definition blur_keeps_shape (cv : OpenCV) : Prop :=
  ∀ a rows cols, rect rows cols a → rect rows cols (GaussianBlur a).

(** A white frame, 160 wide and 220 high, with a black patch where the
    suit symbol of an upright card sits (rows 50-69, columns 5-19). *)
Definition patch_frame : Frame :=
  map (λ r, map (λ c,
    if ((50 <=? r) && (r <? 70) && (5 <=? c) && (c <? 20))%nat
    then (0, 0, 0) else (255, 255, 255)) (seq 0 160)) (seq 0 220).

(** The reference routines without the smoothing stage. *)
Definition FastCV : OpenCV :=
  Build_OpenCV (list Pt) RefCV.cvtColor (λ a, a) RefCV.threshold
    RefCV.findContours RefCV.contourArea RefCV.arcLength RefCV.approxPolyDP
    RefCV.boundingRect (λ src dst, src) RefCV.warpPerspective RefCV.resize_by
    RefCV.resize_to.

(** The value of a run that returned. *)
Definition the_card (r : res Query_card) : Query_card :=
  match r with Ok qCard => qCard | Raise _ => Query_card_init end.

Definition the_image (r : res (option Gray)) : Gray :=
  match r with Ok (Some final_img) => final_img | _ => [] end.

(** Whether a run ended with a value. *)
Definition returned {A} (r : res A) : bool :=
  match r with Ok _ => true | Raise _ => false end.

(** Whether a run of the isolator ended with an image. *)
Definition produced (r : res (option Gray)) : bool :=
  match r with Ok (Some _) => true | _ => false end.

(** What the pipeline and the isolator make of that frame. *)
Definition sample_card : Query_card :=
  the_card (preprocess_card (cv := FastCV) card_contour patch_frame).

Definition sample_template : Gray :=
  the_image (isolate (cv := FastCV) patch_frame).

(** [a[y:y+h, x:x+w]] for a bounding rectangle [(x, y, w, h)]. *)
Definition crop (a : Gray) (rectangle : Z * Z * Z * Z) : Gray :=
  let '(x, y, w, h) := rectangle in
  slice2 (Z.to_nat y) (Z.to_nat (y + h)) (Z.to_nat x) (Z.to_nat (x + w)) a.

(** The template was made by the isolator from some frame. *)
Definition isolated `{OpenCV} (Tsuit : Train_suits) : Prop :=
  ∃ image t, isolate image = Ok (Some t) ∧ img_of Tsuit = Some t.

(** * Properties *)

(** ** The monads *)

Lemma read_only_ret {S A} (a : A) : read_only (mret a : St S A).
Proof. by intros s. Qed.

Lemma read_only_gets {S A} (f : S → A) : read_only (gets f).
Proof. by intros s. Qed.

Lemma read_only_lift {S A} (r : res A) : read_only (lift r : St S A).
Proof. by intros s. Qed.

Lemma read_only_bind {S A B} (m : St S A) (k : A → St S B) :
  read_only m → (∀ a, read_only (k a)) → read_only (m ≫= k).
Proof.
  intros Hm Hk s. unfold mbind, St_bind.
  specialize (Hm s). destruct (m s) as [[a|e] s']; simpl in *; subst; [apply Hk | done].
Qed.

Lemma read_only_for {S A B} (xs : list B) (body : B → A → St S A) acc :
  (∀ x a, read_only (body x a)) → read_only (for_St xs body acc).
Proof.
  intros Hb. revert acc. induction xs as [|x xs IH]; intros acc; simpl.
  - apply read_only_ret.
  - apply read_only_bind; [apply Hb | apply IH].
Qed.

#[local] Hint Resolve read_only_ret read_only_gets read_only_lift : frame.

Lemma read_only_match_step Tsuit best : read_only (match_step Tsuit best).
Proof.
  unfold match_step.
  apply read_only_bind; [auto with frame | intros g].
  apply read_only_bind; [auto with frame | intros d].
  case_match; auto with frame.
Qed.

Lemma read_only_match_card_body ts : read_only (match_card_body ts).
Proof.
  unfold match_card_body.
  apply read_only_bind; [auto with frame | intros g].
  apply read_only_bind.
  { case_decide; [apply read_only_for, read_only_match_step | auto with frame]. }
  intros [d n].
  apply read_only_bind; [| auto with frame].
  repeat case_match; auto with frame.
Qed.

(** ** [match_card] leaves the card alone *)

(** C10: whatever the card and the templates, and whether the call
    returns or raises, every field of the [Query_card] is the same after
    [match_card] as before; the result travels only in the returned
    pair. *)
Theorem match_card_frame (qCard : Query_card) (train_suits : list Train_suits) :
  let qCard' := (match_card qCard train_suits).2 in
  qCard' = qCard ∧
  contour qCard' = contour qCard ∧ width qCard' = width qCard ∧
  height qCard' = height qCard ∧ corner_pts qCard' = corner_pts qCard ∧
  center qCard' = center qCard ∧ warp qCard' = warp qCard ∧
  suit_img qCard' = suit_img qCard ∧
  best_suit_match qCard' = best_suit_match qCard ∧
  suit_diff qCard' = suit_diff qCard.
Proof.
  simpl. unfold match_card.
  rewrite (read_only_match_card_body train_suits qCard). by repeat split.
Qed.

(** ** Scores *)

Lemma shape_rect {A} (a : img A) h w :
  rect h w a → (0 < h)%nat → shape a = (h, w).
Proof.
  intros [Hl Hr] Hh. unfold shape. destruct a as [|r a]; simpl in *; [lia|].
  inversion Hr; subst. done.
Qed.

Lemma foldr_add_app (l1 l2 : list Z) :
  foldr Z.add 0 (l1 ++ l2) = foldr Z.add 0 l1 + foldr Z.add 0 l2.
Proof. induction l1 as [|x l1 IH]; simpl; lia. Qed.

Lemma np_sum_cons (r : list Z) (a : Gray) :
  np_sum (r :: a) = foldr Z.add 0 r + np_sum a.
Proof. unfold np_sum. simpl. apply foldr_add_app. Qed.

Lemma row_diff_bound (r1 r2 : list Z) :
  Forall (λ p, 0 ≤ p ≤ 255) r1 → Forall (λ p, 0 ≤ p ≤ 255) r2 →
  0 ≤ foldr Z.add 0 (zip_with (λ x y, Z.abs (x - y)) r1 r2)
    ≤ 255 * Z.of_nat (length r1).
Proof.
  intros H1. revert r2. induction H1 as [|x r1 Hx _ IH]; intros r2 H2.
  - simpl. lia.
  - destruct H2 as [|y r2 Hy H2]; simpl; [lia|].
    specialize (IH r2 H2). lia.
Qed.

Lemma img_diff_bound (a b : Gray) (w : nat) :
  byte_img a → byte_img b → Forall (λ r, length r = w) a →
  0 ≤ np_sum (zip_with (zip_with (λ x y, Z.abs (x - y))) a b)
    ≤ 255 * (Z.of_nat (length a) * Z.of_nat w).
Proof.
  intros Ha. revert b. induction Ha as [|r a Hr _ IH]; intros b Hb Hw.
  - unfold np_sum. simpl. lia.
  - inversion Hw as [|? ? Hlen Hw']; subst.
    destruct Hb as [|r' b Hr' Hb].
    + unfold np_sum. simpl. lia.
    + cbn [zip_with]. rewrite np_sum_cons.
      pose proof (row_diff_bound r r' Hr Hr').
      specialize (IH b Hb Hw'). cbn [length]. lia.
Qed.

Lemma row_diff_self (r : list Z) :
  foldr Z.add 0 (zip_with (λ x y, Z.abs (x - y)) r r) = 0.
Proof. induction r as [|x r IH]; simpl; lia. Qed.

Lemma img_diff_self (a : Gray) :
  np_sum (zip_with (zip_with (λ x y, Z.abs (x - y))) a a) = 0.
Proof.
  induction a as [|r a IH]; [done|].
  cbn [zip_with]. rewrite np_sum_cons, row_diff_self, IH. done.
Qed.

Lemma absdiff_canonical (g t : Gray) :
  canonical g → canonical t →
  absdiff g (Some t) = Ok (zip_with (zip_with (λ x y, Z.abs (x - y))) g t).
Proof.
  intros [Hg _] [Ht _]. unfold absdiff.
  rewrite (shape_rect g _ _ Hg), (shape_rect t _ _ Ht) by (unfold SUIT_HEIGHT; lia).
  by rewrite decide_True.
Qed.

Lemma Tsuit_diff_bound (g : Gray) (T : Train_suits) :
  canonical g → loaded T → 0 ≤ Tsuit_diff g T ≤ 7000.
Proof.
  intros Hg (t & Ht & Hc). unfold Tsuit_diff. rewrite Ht, absdiff_canonical by done.
  destruct Hg as [[Hl Hw] Hb], Hc as [_ Hb'].
  pose proof (img_diff_bound g t _ Hb Hb' Hw) as Hs.
  rewrite Hl in Hs. unfold SUIT_HEIGHT, SUIT_WIDTH in Hs.
  rewrite Z.quot_div_nonneg by lia. split.
  - apply Z.div_pos; lia.
  - apply Z.div_le_upper_bound; lia.
Qed.

Lemma Tsuit_diff_self (g : Gray) (T : Train_suits) :
  img_of T = Some g → Tsuit_diff g T = 0.
Proof.
  intros Ht. unfold Tsuit_diff, absdiff. rewrite Ht, decide_True by done.
  by rewrite img_diff_self.
Qed.

(** ** The matching loop *)

Lemma match_step_run (T : Train_suits) best (q : Query_card) :
  is_Ok (absdiff (suit_img q) (img_of T)) →
  match_step T best q = (Ok (better (suit_img q) best T), q).
Proof.
  unfold match_step, better, Tsuit_diff, mbind, St_bind, gets, lift, is_Ok.
  destruct (absdiff (suit_img q) (img_of T)) as [d|e]; [intros _ | done].
  by case_match.
Qed.

Lemma match_step_raise (T : Train_suits) best (q : Query_card) e :
  absdiff (suit_img q) (img_of T) = Raise e →
  match_step T best q = (Raise e, q).
Proof.
  intros H. unfold match_step, mbind, St_bind, gets, lift. by rewrite H.
Qed.

Lemma for_match_run (ts : list Train_suits) best (q : Query_card) :
  Forall (λ T, is_Ok (absdiff (suit_img q) (img_of T))) ts →
  for_St ts match_step best q = (Ok (running_best (suit_img q) ts best), q).
Proof.
  intros H. revert best. induction H as [|T ts HT _ IH]; intros best; [done|].
  simpl. unfold mbind, St_bind at 1. rewrite match_step_run by done. apply IH.
Qed.

Lemma for_match_raise (ts : list Train_suits) best (q : Query_card) T :
  T ∈ ts → img_of T = None →
  ∃ e, for_St ts match_step best q = (Raise e, q).
Proof.
  intros Hin Hnone. revert best.
  induction ts as [|T' ts IH]; intros best; [by apply elem_of_nil in Hin|].
  simpl. unfold mbind, St_bind at 1.
  destruct (absdiff (suit_img q) (img_of T')) as [d|e] eqn:Hd.
  - rewrite match_step_run by (by rewrite Hd).
    apply IH. apply elem_of_cons in Hin as [->|Hin]; [|done].
    rewrite Hnone in Hd. done.
  - rewrite (match_step_raise _ _ _ e) by done. eauto.
Qed.

(** The fold keeps the first template of least score, or the initial
    best when no template beats it. *)
Lemma running_best_spec (g : Gray) (ts : list Train_suits) best :
  (running_best g ts best = best ∧
   ∀ T, T ∈ ts → best.1 ≤ Tsuit_diff g T) ∨
  (∃ i T, ts !! i = Some T ∧
     running_best g ts best = (Tsuit_diff g T, Some (name T)) ∧
     Tsuit_diff g T < best.1 ∧
     (∀ j T', ts !! j = Some T' → Tsuit_diff g T ≤ Tsuit_diff g T') ∧
     (∀ j T', (j < i)%nat → ts !! j = Some T' → Tsuit_diff g T < Tsuit_diff g T')).
Proof.
  revert best. induction ts as [|T0 ts IH]; intros best.
  - left. split; [done|]. intros T HT. by apply elem_of_nil in HT.
  - unfold running_best. cbn [foldl]. fold (running_best g ts (better g best T0)).
    destruct (Z.ltb_spec (Tsuit_diff g T0) best.1) as [Hlt|Hge].
    + assert (better g best T0 = (Tsuit_diff g T0, Some (name T0))) as ->.
      { unfold better. apply Z.ltb_lt in Hlt. by rewrite Hlt. }
      right. destruct (IH (Tsuit_diff g T0, Some (name T0))) as [[Heq Hall]|(i & T & Hi & Heq & Hlt' & Hmin & Hfirst)].
      * exists 0%nat, T0. simpl in Hall. repeat split; try done.
        -- intros [|j] T' HT'; simpl in HT'.
           ++ by inversion HT'.
           ++ apply Hall. by eapply list_elem_of_lookup_2.
        -- intros j T' Hj. lia.
      * exists (S i), T. simpl in Hlt'. repeat split; try done; try lia.
        -- intros [|j] T' HT'; simpl in HT'.
           ++ inversion HT'; subst. lia.
           ++ by eapply Hmin.
        -- intros [|j] T' Hj HT'; simpl in HT'.
           ++ inversion HT'; subst. lia.
           ++ eapply Hfirst; [|done]. lia.
    + assert (better g best T0 = best) as ->.
      { unfold better. apply Z.ltb_ge in Hge. by rewrite Hge. }
      destruct (IH best) as [[Heq Hall]|(i & T & Hi & Heq & Hlt' & Hmin & Hfirst)].
      * left. split; [done|]. intros T HT.
        apply elem_of_cons in HT as [->|HT]; [lia | by apply Hall].
      * right. exists (S i), T. repeat split; try done.
        -- intros [|j] T' HT'; simpl in HT'.
           ++ inversion HT'; subst. lia.
           ++ by eapply Hmin.
        -- intros [|j] T' Hj HT'; simpl in HT'.
           ++ inversion HT'; subst. lia.
           ++ eapply Hfirst; [|done]. lia.
Qed.

Lemma match_card_empty (q : Query_card) (ts : list Train_suits) :
  suit_img q = [] → match_card q ts = (Ok ("Unknown"%string, 10000), q).
Proof.
  intros Hg. unfold match_card, match_card_body, mbind, St_bind, gets.
  rewrite Hg. done.
Qed.

Lemma match_card_run (q : Query_card) (ts : list Train_suits) :
  suit_img q ≠ [] →
  Forall (λ T, is_Ok (absdiff (suit_img q) (img_of T))) ts →
  (match_card q ts).1 =
    match running_best (suit_img q) ts (10000, None) with
    | (d, n) =>
        if d <? SUIT_DIFF_MAX
        then match n with
             | Some n => Ok (n, d)
             | None => Raise UnboundLocalError
             end
        else Ok ("Unknown"%string, d)
    end.
Proof.
  intros Hg Hts. unfold match_card, match_card_body, mbind, St_bind, gets.
  rewrite decide_True by (by destruct (suit_img q)).
  rewrite for_match_run by done.
  destruct (running_best _ _ _) as [d n]. simpl.
  destruct (d <? SUIT_DIFF_MAX); [|done]. by destruct n.
Qed.

Lemma loaded_absdiff_ok (g : Gray) (ts : list Train_suits) :
  canonical g → Forall loaded ts →
  Forall (λ T, is_Ok (absdiff g (img_of T))) ts.
Proof.
  intros Hg Hts. eapply Forall_impl; [exact Hts|]. intros T (t & Ht & Hc).
  by rewrite Ht, absdiff_canonical.
Qed.

Lemma canonical_nonempty (g : Gray) : canonical g → g ≠ [].
Proof. intros [[Hl _] _] ->. done. Qed.

(** ** [match_card] *)

(** C1 (as amended): over 8-bit images of the canonical size, an empty
    glyph gives ("Unknown", 10000); otherwise the score is the least
    template score (sum of absolute differences, integer-divided by
    255), the winner is the first template reaching it, and the label is
    the winner's name below 700 and "Unknown" from 700 on.  A glyph equal
    to a template scores 0 and carries that template's name provided no
    earlier template also scores 0. *)
Theorem match_card_spec (qCard : Query_card) (train_suits : list Train_suits) :
  length train_suits = 4%nat →
  suit_img qCard = [] ∨ canonical (suit_img qCard) →
  Forall loaded train_suits →
  let glyph := suit_img qCard in
  let result := (match_card qCard train_suits).1 in
  (glyph = [] → result = Ok ("Unknown"%string, 10000)) ∧
  (glyph ≠ [] →
     ∃ i T, train_suits !! i = Some T ∧
       (∀ j T', train_suits !! j = Some T' →
                Tsuit_diff glyph T ≤ Tsuit_diff glyph T') ∧
       (∀ j T', (j < i)%nat → train_suits !! j = Some T' →
                Tsuit_diff glyph T < Tsuit_diff glyph T') ∧
       result = Ok (if Tsuit_diff glyph T <? SUIT_DIFF_MAX
                    then name T else "Unknown"%string,
                    Tsuit_diff glyph T)) ∧
  (∀ i T, glyph ≠ [] → train_suits !! i = Some T → img_of T = Some glyph →
     (∀ j T', (j < i)%nat → train_suits !! j = Some T' →
              0 < Tsuit_diff glyph T') →
     result = Ok (name T, 0)).
Proof.
  intros Hlen Hglyph Hts glyph result.
  assert (Hne : glyph ≠ [] →
     ∃ i T, train_suits !! i = Some T ∧
       (∀ j T', train_suits !! j = Some T' →
                Tsuit_diff glyph T ≤ Tsuit_diff glyph T') ∧
       (∀ j T', (j < i)%nat → train_suits !! j = Some T' →
                Tsuit_diff glyph T < Tsuit_diff glyph T') ∧
       result = Ok (if Tsuit_diff glyph T <? SUIT_DIFF_MAX
                    then name T else "Unknown"%string,
                    Tsuit_diff glyph T)).
  { intros Hg. destruct Hglyph as [Hnil|Hcan]; [done|].
    subst result. rewrite match_card_run by (by auto using loaded_absdiff_ok).
    fold glyph.
    destruct (running_best_spec glyph train_suits (10000, None))
      as [[_ Hall]|(i & T & Hi & Heq & _ & Hmin & Hfirst)].
    - destruct train_suits as [|T0 ts]; [done|]. exfalso.
      assert (HT0 : loaded T0) by (by inversion Hts).
      pose proof (Tsuit_diff_bound glyph T0 Hcan HT0).
      specialize (Hall T0 (list_elem_of_here _ _)). simpl in Hall. lia.
    - exists i, T. rewrite Heq. repeat split; try done.
      by destruct (Tsuit_diff glyph T <? SUIT_DIFF_MAX). }
  split; [|split; [done|]].
  - intros Hg. subst result. by rewrite match_card_empty.
  - intros i T Hg Hi Himg Hearlier.
    destruct (Hne Hg) as (i0 & T0 & Hi0 & Hmin & Hfirst & Hres).
    destruct Hglyph as [Hnil|Hcan]; [done|].
    pose proof (Tsuit_diff_self glyph T Himg) as Hzero.
    assert (HT0 : loaded T0).
    { eapply Forall_forall; [exact Hts|]. by eapply list_elem_of_lookup_2. }
    pose proof (Tsuit_diff_bound glyph T0 Hcan HT0) as Hb0.
    pose proof (Hmin i T Hi) as Hle.
    destruct (lt_eq_lt_dec i0 i) as [[Hlt| ->]|Hgt].
    + specialize (Hearlier i0 T0 Hlt Hi0). lia.
    + rewrite Hi in Hi0. inversion Hi0; subst T0. rewrite Hres, Hzero. done.
    + specialize (Hfirst i T Hgt Hi). lia.
Qed.

Lemma canonical_flat (v : Z) :
  0 ≤ v ≤ 255 → canonical (flat SUIT_HEIGHT SUIT_WIDTH v).
Proof.
  intros Hv. unfold canonical, rect, byte_img, flat. split; [split|].
  - by rewrite length_replicate.
  - apply Forall_replicate. by rewrite length_replicate.
  - apply Forall_replicate, Forall_replicate. lia.
Qed.

Lemma canonical_dotted (v d : Z) :
  0 ≤ v ≤ 255 → 0 ≤ d ≤ 255 → canonical (dotted SUIT_HEIGHT SUIT_WIDTH v d).
Proof.
  intros Hv Hd. destruct (canonical_flat v Hv) as [[Hl Hw] Hb].
  unfold canonical, rect, byte_img, dotted. split; [split|].
  - by rewrite length_insert.
  - apply Forall_insert; [done|]. by rewrite length_insert, length_replicate.
  - apply Forall_insert; [done|]. apply Forall_insert; [|lia].
    apply Forall_replicate. lia.
Qed.

Lemma loaded_flat (v : Z) (s : string) :
  0 ≤ v ≤ 255 → loaded (mkTrain_suits (Some (flat SUIT_HEIGHT SUIT_WIDTH v)) s).
Proof. intros Hv. eexists. split; [reflexivity|]. by apply canonical_flat. Qed.

Lemma loaded_dotted (v d : Z) (s : string) :
  0 ≤ v ≤ 255 → 0 ≤ d ≤ 255 →
  loaded (mkTrain_suits (Some (dotted SUIT_HEIGHT SUIT_WIDTH v d)) s).
Proof. intros Hv Hd. eexists. split; [reflexivity|]. by apply canonical_dotted. Qed.

Lemma near_blank_suits_loaded : Forall loaded near_blank_suits.
Proof.
  unfold near_blank_suits, blank_glyph.
  constructor; [apply loaded_dotted; lia|].
  constructor; [apply loaded_flat; lia|].
  constructor; [apply loaded_flat; lia|].
  constructor; [apply loaded_dotted; lia|].
  constructor.
Qed.

Lemma match_card_spec_witness :
  let result := (match_card (card_with blank_glyph) near_blank_suits).1 in
  (suit_img (card_with blank_glyph) = [] → result = Ok ("Unknown"%string, 10000)) ∧
  (suit_img (card_with blank_glyph) ≠ [] →
     ∃ i T, near_blank_suits !! i = Some T ∧
       (∀ j T', near_blank_suits !! j = Some T' →
                Tsuit_diff blank_glyph T ≤ Tsuit_diff blank_glyph T') ∧
       (∀ j T', (j < i)%nat → near_blank_suits !! j = Some T' →
                Tsuit_diff blank_glyph T < Tsuit_diff blank_glyph T') ∧
       result = Ok (if Tsuit_diff blank_glyph T <? SUIT_DIFF_MAX
                    then name T else "Unknown"%string,
                    Tsuit_diff blank_glyph T)) ∧
  (∀ i T, suit_img (card_with blank_glyph) ≠ [] →
     near_blank_suits !! i = Some T → img_of T = Some blank_glyph →
     (∀ j T', (j < i)%nat → near_blank_suits !! j = Some T' →
              0 < Tsuit_diff blank_glyph T') →
     result = Ok (name T, 0)).
Proof.
  apply (match_card_spec (card_with blank_glyph) near_blank_suits).
  - reflexivity.
  - right. change (canonical (flat SUIT_HEIGHT SUIT_WIDTH 0)).
    apply canonical_flat. lia.
  - apply near_blank_suits_loaded.
Defined.

(** C1, the case the claim words too strongly: the blank glyph is
    pixel-identical to exactly one template, Diamonds, yet Spades, one
    intensity step away in one pixel, also scores 0 and comes first, so
    the label returned is "Spades". *)
Lemma match_card_identical_not_first :
  length near_blank_suits = 4%nat ∧
  canonical blank_glyph ∧
  Forall loaded near_blank_suits ∧
  map (λ T, bool_decide (img_of T = Some blank_glyph)) near_blank_suits
    = [false; true; false; false] ∧
  map name near_blank_suits = ["Spades"; "Diamonds"; "Clubs"; "Hearts"]%string ∧
  (match_card (card_with blank_glyph) near_blank_suits).1
    = Ok ("Spades"%string, 0) ∧
  (match_card (card_with blank_glyph) near_blank_suits).1
    ≠ Ok ("Diamonds"%string, 0).
Proof.
  assert (H : (match_card (card_with blank_glyph) near_blank_suits).1
              = Ok ("Spades"%string, 0)) by (vm_compute; reflexivity).
  split; [reflexivity|]. split; [unfold blank_glyph; apply canonical_flat; lia|].
  split; [apply near_blank_suits_loaded|].
  split; [vm_compute; reflexivity|]. split; [reflexivity|].
  split; [exact H|]. rewrite H. discriminate.
Qed.

(** ** [load_suits] *)

Lemma load_suits_run (imread : string → option Gray) (filepath : string) :
  load_suits imread filepath =
    Ok (map (λ Suit, mkTrain_suits (imread (filepath +:+ (Suit +:+ ".jpg"))) Suit)
          suit_names).
Proof. reflexivity. Qed.

Lemma match_card_raise (q : Query_card) (ts : list Train_suits) T :
  suit_img q ≠ [] → T ∈ ts → img_of T = None →
  ∃ e, match_card q ts = (Raise e, q).
Proof.
  intros Hg Hin Hnone.
  destruct (for_match_raise ts (10000, None) q T Hin Hnone) as [e He].
  exists e. unfold match_card, match_card_body, mbind, St_bind, gets.
  rewrite decide_True by (by destruct (suit_img q)).
  by rewrite He.
Qed.

(** C5 (as amended): [load_suits] raises nothing whatever the directory
    holds.  It returns four entries named Spades, Diamonds, Clubs and
    Hearts, each with what the image read returned, so an absent file
    leaves an entry without image.  Against such a set [match_card]
    raises once a card has a glyph, and answers ("Unknown", 10000) for a
    card without one. *)
Theorem load_suits_total (imread : string → option Gray) (filepath : string) :
  ∃ train_suits,
    load_suits imread filepath = Ok train_suits ∧
    length train_suits = 4%nat ∧
    map name train_suits = suit_names ∧
    map img_of train_suits
      = map (λ Suit, imread (filepath +:+ (Suit +:+ ".jpg"))) suit_names ∧
    (∀ qCard, suit_img qCard = [] →
       (match_card qCard train_suits).1 = Ok ("Unknown"%string, 10000)) ∧
    (∀ qCard, suit_img qCard ≠ [] → None ∈ map img_of train_suits →
       ∃ e, (match_card qCard train_suits).1 = Raise e).
Proof.
  eexists. split; [apply load_suits_run|]. repeat split.
  - intros q Hq. by rewrite match_card_empty.
  - intros q Hq Hnone. apply list_elem_of_fmap in Hnone as (T & HT & Hin).
    destruct (match_card_raise q _ T Hq Hin) as [e He]; [done|].
    exists e. by rewrite He.
Qed.

(** C5, the claim as worded fails: with every template file absent the
    loader still returns its four entries and no error, and a card
    without glyph is matched against them without any complaint. *)
Lemma load_suits_missing_files_silent :
  load_suits no_files "Card_Imgs/" =
    Ok [ mkTrain_suits None "Spades"; mkTrain_suits None "Diamonds";
         mkTrain_suits None "Clubs"; mkTrain_suits None "Hearts" ] ∧
  (∀ train_suits, load_suits no_files "Card_Imgs/" = Ok train_suits →
     filter (λ T, img_of T ≠ None) train_suits = [] ∧
     (match_card Query_card_init train_suits).1 = Ok ("Unknown"%string, 10000)).
Proof.
  split; [reflexivity|]. intros ts Hts. inversion Hts; subst. by split.
Qed.

(** ** The local threshold of [preprocess_card] *)

Lemma card_thresh_level_max (white_level : Z) :
  card_thresh_level white_level = Z.max 1 (white_level - 30).
Proof.
  unfold card_thresh_level, CARD_THRESH.
  destruct (Z.leb_spec (white_level - 30) 0); lia.
Qed.

Lemma query_thresh_run `{OpenCV} (warped Qcorner_zoom : Gray)
    (row : list Z) (white_level : Z) :
  resize_by (slice2 0 84 0 32 warped) 4 4 = Ok Qcorner_zoom →
  Qcorner_zoom !! 15%nat = Some row →
  row !! 64%nat = Some white_level →
  query_thresh warped
    = Ok (threshold Qcorner_zoom (card_thresh_level white_level) 255
            THRESH_BINARY_INV).
Proof.
  intros Hzoom Hrow Hpx.
  unfold query_thresh, CORNER_HEIGHT, CORNER_WIDTH, getitem, mbind, res_bind.
  rewrite Hzoom. cbn beta iota. rewrite Hrow. cbn beta iota.
  change (32 * 4 / 2)%nat with 64%nat. rewrite Hpx. done.
Qed.

(** C6: the corner of the rectified card is re-binarized at the sampled
    white level minus 30, raised to 1 whenever that difference is 0 or
    less; so any white level below 30 gives the cutoff 1. *)
Theorem query_thresh_cutoff `{OpenCV} (warped Qcorner_zoom : Gray)
    (row : list Z) (white_level : Z) :
  resize_by (slice2 0 84 0 32 warped) 4 4 = Ok Qcorner_zoom →
  Qcorner_zoom !! 15%nat = Some row →
  row !! 64%nat = Some white_level →
  ∃ thresh_level,
    query_thresh warped
      = Ok (threshold Qcorner_zoom thresh_level 255 THRESH_BINARY_INV) ∧
    (white_level - 30 ≤ 0 → thresh_level = 1) ∧
    (0 < white_level - 30 → thresh_level = white_level - 30) ∧
    (white_level < 30 → thresh_level = 1) ∧
    1 ≤ thresh_level.
Proof.
  intros Hzoom Hrow Hpx. exists (card_thresh_level white_level). split.
  - by apply query_thresh_run with row.
  - rewrite card_thresh_level_max. lia.
Qed.

(** ** The reference instance meets the contract *)

Lemma rect_map {A B} (f : A → B) (a : img A) h w :
  rect h w a → rect h w (map (map f) a).
Proof.
  intros [Hl Hw]. split; [by rewrite length_map|].
  apply Forall_map. eapply Forall_impl; [exact Hw|].
  intros r Hr. by rewrite length_map.
Qed.

Lemma rect_tabulate {A} (f : nat → nat → A) h w :
  rect h w (map (λ v, map (f v) (seq 0 w)) (seq 0 h)).
Proof.
  split; [by rewrite length_map, length_seq|].
  apply Forall_map, Forall_forall. intros v _. by rewrite length_map, length_seq.
Qed.

Lemma rect_not_empty {A} (a : img A) h w :
  rect h w a → (0 < h)%nat → (0 < w)%nat → RefCV.is_empty a = false.
Proof.
  intros Hr Hh Hw. unfold RefCV.is_empty. rewrite (shape_rect a h w) by done.
  destruct h; [lia|]. destruct w; [lia|]. done.
Qed.

Lemma length_stretch {A} (fx : nat) (row : list A) :
  length (concat (map (replicate fx) row)) = (fx * length row)%nat.
Proof.
  induction row as [|x row IH]; simpl; [lia|].
  rewrite length_app, length_replicate, IH. lia.
Qed.

Lemma rect_stretch {A} (fx fy : nat) (a : img A) h w :
  rect h w a →
  rect (fy * h) (fx * w)
    (concat (map (λ row, replicate fy (concat (map (replicate fx) row))) a)).
Proof.
  intros [Hl Hw]. subst h. induction Hw as [|r a Hr _ IH]; simpl.
  - split; [simpl; lia | constructor].
  - destruct IH as [IHl IHw]. split.
    + rewrite length_app, length_replicate, IHl. simpl. lia.
    + apply Forall_app. split; [|done].
      apply Forall_replicate. by rewrite length_stretch, Hr.
Qed.

Lemma RefCV_spec : OpenCVSpec RefCV.cv.
Proof.
  split.
  - intros m cnts hier H Hne. cbn in H. unfold RefCV.findContours in H.
    destruct m as [|[|p r] m']; try (inversion H; subst; done).
    destruct (existsb _ _); inversion H; subst; [|done].
    eexists. by split.
  - intros m c rows cols [Hl Hw] Hin. cbn in Hin |- *.
    unfold RefCV.findContours in Hin.
    destruct m as [|[|p r] m']; try (by apply elem_of_nil in Hin).
    destruct (existsb _ _); [|by apply elem_of_nil in Hin].
    apply list_elem_of_singleton in Hin. subst c.
    inversion Hw as [|? ? Hc _]; subst.
    unfold RefCV.boundingRect, RefCV.frame_contour. cbn [foldr fst snd length].
    lia.
  - intros f rows cols Hr. by apply rect_map.
  - intros a t mx ty rows cols Hr. by apply rect_map.
  - intros f M w h. apply rect_tabulate.
  - intros a fx fy rows cols Hr Hrows Hcols Hfx Hfy.
    change (resize_by a fx fy) with (RefCV.resize_by a fx fy).
    unfold RefCV.resize_by.
    rewrite (rect_not_empty a rows cols) by done.
    destruct fx; [lia|]. destruct fy; [lia|]. cbn [Nat.eqb orb].
    eexists. split; [reflexivity|]. by apply rect_stretch.
  - intros a w h rows cols Hr Hrows Hcols Hw Hh.
    change (resize_to a (w, h)) with (RefCV.resize_to a (w, h)).
    unfold RefCV.resize_to.
    rewrite (shape_rect a rows cols), (rect_not_empty a rows cols) by done.
    destruct w; [lia|]. destruct h; [lia|]. cbn [Nat.eqb orb].
    eexists. split; [reflexivity|].
    apply (rect_tabulate (λ r c,
      default 0 (default [] (a !! (r * rows / S h)%nat) !! (c * cols / S w)%nat))).
Qed.

Lemma query_thresh_cutoff_witness :
  ∃ thresh_level,
    query_thresh (cv := RefCV.cv) (flat 300 200 10)
      = Ok (RefCV.threshold (flat 336 128 10) thresh_level 255
              THRESH_BINARY_INV) ∧
    (10 - 30 ≤ 0 → thresh_level = 1) ∧
    (0 < 10 - 30 → thresh_level = 10 - 30) ∧
    (10 < 30 → thresh_level = 1) ∧
    1 ≤ thresh_level.
Proof.
  apply (query_thresh_cutoff (H := RefCV.cv)
           (flat 300 200 10) (flat 336 128 10) (replicate 128 10) 10).
  - vm_compute. reflexivity.
  - vm_compute. reflexivity.
  - vm_compute. reflexivity.
Defined.

(** ** [preprocess_image] *)

Lemma preprocess_image_run `{OpenCV} (image : Frame) (row : list Z) (bkg_level : Z) :
  cvtColor image !! ((shape image).2 / 100)%nat = Some row →
  row !! ((shape image).1 / 2)%nat = Some bkg_level →
  preprocess_image image
    = Ok (threshold (GaussianBlur (cvtColor image)) (bkg_level + 60) 255 THRESH_BINARY).
Proof.
  intros Hrow Hpx. unfold preprocess_image, getitem, mbind, res_bind.
  destruct (shape image) as [img_w img_h]. cbn [fst snd] in Hrow, Hpx.
  rewrite Hrow. cbn beta iota. rewrite Hpx. done.
Qed.

(** C7 (as amended): on a square frame the thresholder reads exactly one
    pixel, at row H/100 and column W/2 of the grey image before
    smoothing, and thresholds the smoothed image at that intensity plus
    60. *)
Theorem preprocess_image_cutoff `{cv : OpenCV} (image : Frame) (n : nat) :
  OpenCVSpec cv → rect n n image → (0 < n)%nat →
  ∃ row bkg_level,
    cvtColor image !! (n / 100)%nat = Some row ∧
    row !! (n / 2)%nat = Some bkg_level ∧
    preprocess_image image
      = Ok (threshold (GaussianBlur (cvtColor image)) (bkg_level + BKG_THRESH)
              255 THRESH_BINARY).
Proof.
  intros Hcv Himg Hn.
  destruct (cvtColor_rect cv Hcv image n n Himg) as [Hl Hw].
  assert (Hr : (n / 100 < length (cvtColor image))%nat).
  { rewrite Hl. apply Nat.div_lt; lia. }
  apply lookup_lt_is_Some_2 in Hr as [row Hrow].
  assert (Hc : (n / 2 < length row)%nat).
  { rewrite (Forall_lookup_1 _ _ _ _ Hw Hrow). apply Nat.div_lt; lia. }
  apply lookup_lt_is_Some_2 in Hc as [bkg Hbkg].
  exists row, bkg. split; [done|]. split; [done|].
  apply (preprocess_image_run image row bkg); by rewrite (shape_rect image n n).
Qed.

(** On frames that are not square the two coordinates are taken from
    the wrong dimensions: a 2x4 frame is read at column 1 = H/2, and a
    frame of 4 rows and 1 column is read outside its only column. *)
Example preprocess_image_wide_frame :
  preprocess_image (cv := RefCV.cv)
    [[(0, 0, 0); (9, 9, 9); (200, 200, 200); (0, 0, 0)];
     [(0, 0, 0); (0, 0, 0); (0, 0, 0); (0, 0, 0)]]
  = Ok (RefCV.threshold
          (RefCV.GaussianBlur [[0; 9; 200; 0]; [0; 0; 0; 0]]) (9 + 60) 255
          THRESH_BINARY).
Proof. vm_compute. reflexivity. Qed.

Example preprocess_image_tall_frame :
  preprocess_image (cv := RefCV.cv) (flat 4 1 (0, 0, 0)) = Raise IndexError.
Proof. vm_compute. reflexivity. Qed.

Lemma rect_dark_spot_frame : rect 5 5 dark_spot_frame.
Proof. split; [reflexivity|]. repeat constructor. Qed.

Lemma preprocess_image_cutoff_witness :
  ∃ (row : list Z) (bkg_level : Z),
    RefCV.cvtColor dark_spot_frame !! (5 / 100)%nat = Some row ∧
    row !! (5 / 2)%nat = Some bkg_level ∧
    preprocess_image (cv := RefCV.cv) dark_spot_frame
      = Ok (RefCV.threshold (RefCV.GaussianBlur (RefCV.cvtColor dark_spot_frame))
              (bkg_level + BKG_THRESH) 255 THRESH_BINARY).
Proof.
  apply (preprocess_image_cutoff (cv := RefCV.cv) dark_spot_frame 5).
  - apply RefCV_spec.
  - apply rect_dark_spot_frame.
  - lia.
Defined.

(** C7, the claim as worded fails: on this square frame the pixel at
    row H/100, column W/2 is black in the grey image (cutoff 60, every
    pixel of the mask set) while its smoothed intensity is 219 (the
    worded cutoff 279 would clear the whole mask). *)
Lemma preprocess_image_samples_unsmoothed :
  rect 5 5 dark_spot_frame ∧
  preprocess_image (cv := RefCV.cv) dark_spot_frame = Ok (flat 5 5 255) ∧
  spec_thresh_level (H := RefCV.cv) dark_spot_frame = Ok 279 ∧
  RefCV.threshold (RefCV.GaussianBlur (RefCV.cvtColor dark_spot_frame))
    279 255 THRESH_BINARY = flat 5 5 0 ∧
  preprocess_image (cv := RefCV.cv) dark_spot_frame
    ≠ (level ← spec_thresh_level (H := RefCV.cv) dark_spot_frame;
       Ok (RefCV.threshold (RefCV.GaussianBlur (RefCV.cvtColor dark_spot_frame))
             level 255 THRESH_BINARY)).
Proof.
  split; [apply rect_dark_spot_frame|].
  split; [vm_compute; reflexivity|].
  split; [vm_compute; reflexivity|].
  split; [vm_compute; reflexivity|].
  vm_compute. discriminate.
Qed.

(** ** [find_cards] *)

Lemma Qltb_lt (x y : Q) : Qltb x y = true ↔ (x < y)%Q.
Proof.
  unfold Qltb. rewrite Qlt_alt. destruct (x ?= y)%Q; split; congruence.
Qed.

Lemma card_test_candidate `{OpenCV} (c : Contour) (h : Hier) :
  card_test c h = true ↔ card_candidate c h.
Proof.
  unfold card_test, card_candidate.
  rewrite !andb_true_iff, !Qltb_lt, Z.eqb_eq, Nat.eqb_eq. tauto.
Qed.

Lemma insert_desc_perm {A} (key : A → Q) x (l : list A) :
  insert_desc key x l ≡ₚ x :: l.
Proof.
  induction l as [|y l IH]; simpl; [done|].
  destruct (Qle_bool _ _); [done|]. rewrite IH. apply Permutation_swap.
Qed.

Lemma sorted_reverse_perm {A} (key : A → Q) (l : list A) :
  sorted_reverse key l ≡ₚ l.
Proof.
  induction l as [|x l IH]; simpl; [done|].
  by rewrite insert_desc_perm, IH.
Qed.

Lemma index_sort_perm `{OpenCV} (cnts : list Contour) :
  index_sort cnts ≡ₚ seq 0 (length cnts).
Proof. apply sorted_reverse_perm. Qed.

Lemma index_sort_bound `{OpenCV} (cnts : list Contour) :
  Forall (λ i, (i < length cnts)%nat) (index_sort cnts).
Proof.
  rewrite index_sort_perm. apply Forall_forall. intros i Hi.
  apply elem_of_seq in Hi. lia.
Qed.

Lemma gather_step_run (cnts : list Contour) (hs : list Hier) j c h cs0 hs0 :
  cnts !! j = Some c → hs !! j = Some h →
  gather_step cnts (Some hs) j (cs0, hs0) = Ok (cs0 ++ [c], hs0 ++ [h]).
Proof.
  intros Hc Hh. unfold gather_step, getitem, mbind, res_bind. by rewrite Hc, Hh.
Qed.

Lemma gather_run (cnts : list Contour) (hs : list Hier) (xs : list nat) cs0 hs0 :
  length hs = length cnts →
  Forall (λ i, (i < length cnts)%nat) xs →
  ∃ cs' hs',
    for_res xs (gather_step cnts (Some hs)) (cs0, hs0) = Ok (cs0 ++ cs', hs0 ++ hs') ∧
    length cs' = length xs ∧ length hs' = length xs ∧
    ∀ k j, xs !! k = Some j → cs' !! k = cnts !! j ∧ hs' !! k = hs !! j.
Proof.
  intros Hlen Hxs. revert cs0 hs0.
  induction Hxs as [|j xs Hj _ IH]; intros cs0 hs0.
  - exists [], []. simpl. rewrite !app_nil_r. repeat split; try done.
  - destruct (lookup_lt_is_Some_2 cnts j Hj) as [c Hc].
    assert (Hj' : (j < length hs)%nat) by lia.
    destruct (lookup_lt_is_Some_2 hs j Hj') as [h Hh].
    destruct (IH (cs0 ++ [c]) (hs0 ++ [h])) as (cs' & hs' & Hrun & Hlc & Hlh & Hlook).
    exists (c :: cs'), (h :: hs'). split; [|split; [|split]].
    + cbn [for_res]. rewrite (gather_step_run cnts hs j c h) by done.
      cbn [mbind res_bind]. by rewrite Hrun, <- !app_assoc.
    + simpl. lia.
    + simpl. lia.
    + intros [|k] j' Hk; simpl in Hk.
      * inversion Hk; subst. simpl. by rewrite Hc, Hh.
      * simpl. by apply Hlook.
Qed.

Lemma is_card_at_run `{OpenCV} (cs : list Contour) (hs : list Hier) i c h :
  cs !! i = Some c → hs !! i = Some h →
  is_card_at cs hs i = Ok (card_test c h).
Proof.
  intros Hc Hh. unfold is_card_at, card_test, getitem, mbind, res_bind.
  rewrite Hc. cbn beta iota. rewrite Hh.
  by destruct (Qltb _ _ && Qltb _ _).
Qed.

Lemma flag_step_run `{OpenCV} (cs : list Contour) (hs : list Hier) i c h flags :
  cs !! i = Some c → hs !! i = Some h →
  flag_step cs hs i flags
    = Ok (if card_test c h then <[i := 1]> flags else flags).
Proof.
  intros Hc Hh. unfold flag_step. rewrite (is_card_at_run cs hs i c h) by done.
  cbn [mbind res_bind]. by destruct (card_test c h).
Qed.

(** The second loop sets exactly the flags whose contour passes the
    test and touches nothing else. *)
Lemma flags_run `{OpenCV} (cs : list Contour) (hs : list Hier) (k s : nat)
    (flags : list Z) :
  length hs = length cs → length flags = length cs →
  (s + k ≤ length cs)%nat →
  ∃ flags',
    for_res (seq s k) (flag_step cs hs) flags = Ok flags' ∧
    length flags' = length flags ∧
    (∀ i, (i < s ∨ s + k ≤ i)%nat → flags' !! i = flags !! i) ∧
    (∀ i c h, (s ≤ i < s + k)%nat → cs !! i = Some c → hs !! i = Some h →
       flags' !! i = if card_test c h then Some 1 else flags !! i).
Proof.
  intros Hhs. revert s flags. induction k as [|k IH]; intros s flags Hfl Hsk.
  - exists flags. simpl. repeat split; try done. intros; lia.
  - assert (Hs : (s < length cs)%nat) by lia.
    destruct (lookup_lt_is_Some_2 cs s Hs) as [c Hc].
    assert (Hs' : (s < length hs)%nat) by lia.
    destruct (lookup_lt_is_Some_2 hs s Hs') as [h Hh].
    set (flags1 := if card_test c h then <[s := 1]> flags else flags).
    assert (Hfl1 : length flags1 = length cs).
    { unfold flags1. destruct (card_test c h); [by rewrite length_insert | done]. }
    destruct (IH (S s) flags1 Hfl1) as (flags' & Hrun & Hlen & Hout & Hin); [lia|].
    exists flags'. split; [|split; [|split]].
    + cbn [seq for_res]. rewrite (flag_step_run cs hs s c h) by done.
      cbn [mbind res_bind]. exact Hrun.
    + rewrite Hlen, Hfl1. done.
    + intros i Hi. rewrite Hout by lia. unfold flags1.
      destruct (card_test c h); [|done]. apply list_lookup_insert_ne. lia.
    + intros i c' h' Hi Hc' Hh'. destruct (decide (i = s)) as [->|Hne].
      * rewrite Hc in Hc'. rewrite Hh in Hh'. inversion Hc'; inversion Hh'; subst.
        rewrite Hout by lia. unfold flags1. destruct (card_test c' h'); [|done].
        apply list_lookup_insert_eq. lia.
      * rewrite (Hin i c' h') by (done || lia). unfold flags1.
        destruct (card_test c' h'); [done|].
        destruct (card_test c h); [|done]. apply list_lookup_insert_ne. lia.
Qed.

(** [find_cards] on the output of [findContours]: position [k] of both
    results belongs to the contour of index [index_sort[k]]. *)
Lemma find_cards_run `{OpenCV} (m : Gray) (cnts : list Contour) (hs : list Hier) :
  findContours m = (cnts, Some hs) → length hs = length cnts → cnts ≠ [] →
  ∃ cs flags,
    find_cards m = Ok (cs, flags) ∧
    length cs = length cnts ∧ length flags = length cnts ∧
    ∀ k j, index_sort cnts !! k = Some j →
      ∃ c h, cnts !! j = Some c ∧ hs !! j = Some h ∧ cs !! k = Some c ∧
             flags !! k = Some (if card_test c h then 1 else 0).
Proof.
  intros Hfc Hlen Hne.
  destruct (gather_run cnts hs (index_sort cnts) [] [] Hlen (index_sort_bound cnts))
    as (cs & hs' & Hrun & Hlc & Hlh & Hlook).
  assert (Hn : length (index_sort cnts) = length cnts).
  { by rewrite index_sort_perm, length_seq. }
  rewrite Hn in Hlc, Hlh.
  destruct (flags_run cs hs' (length cs) 0 (replicate (length cnts) 0))
    as (flags & Hfrun & Hflen & _ & Hin).
  { lia. } { by rewrite length_replicate. } { lia. }
  exists cs, flags. split; [|split; [done|split]].
  - unfold find_cards. rewrite Hfc.
    rewrite decide_False by (by destruct cnts).
    simpl in Hrun. rewrite Hrun. cbn [mbind res_bind]. by rewrite Hfrun.
  - by rewrite Hflen, length_replicate.
  - intros k j Hk. destruct (Hlook k j Hk) as [Hck Hhk].
    assert (Hj : (j < length cnts)%nat).
    { exact (Forall_lookup_1 _ _ _ _ (index_sort_bound cnts) Hk). }
    destruct (lookup_lt_is_Some_2 cnts j Hj) as [c Hc].
    assert (Hj' : (j < length hs)%nat) by lia.
    destruct (lookup_lt_is_Some_2 hs j Hj') as [h Hh].
    exists c, h. rewrite Hc in Hck. rewrite Hh in Hhk.
    split; [done|]. split; [done|]. split; [done|].
    assert (Hkl : (k < length cs)%nat).
    { apply lookup_lt_Some in Hk. lia. }
    rewrite (Hin k c h) by (lia || done).
    destruct (card_test c h); [done|].
    apply lookup_replicate_2. lia.
Qed.

Lemma tabulate_lookup {A} (d : A) (l : list A) :
  map (λ j, default d (l !! j)) (seq 0 (length l)) = l.
Proof.
  apply list_eq. intros i.
  change (map ?f ?l') with (f <$> l'). rewrite list_lookup_fmap.
  destruct (decide (i < length l)%nat) as [Hi|Hi].
  - rewrite lookup_seq_lt by done. simpl.
    destruct (lookup_lt_is_Some_2 l i Hi) as [x Hx]. by rewrite Hx.
  - rewrite lookup_seq_ge by lia. simpl. symmetry. apply lookup_ge_None. lia.
Qed.

Lemma find_cards_empty `{cv : OpenCV} (m : Gray) (hier : option (list Hier)) :
  findContours m = ([], hier) → find_cards m = Ok ([], []).
Proof. intros Hfc. unfold find_cards. by rewrite Hfc. Qed.

(** C9: on the output of [findContours], [find_cards] returns; its two
    lists have the same length, the contours are those found (reordered)
    with one 0/1 flag each, and both lists are empty when no contour was
    found. *)
Theorem find_cards_parallel `{cv : OpenCV} (thresh_image : Gray) :
  OpenCVSpec cv →
  ∃ cnts_sort cnt_is_card,
    find_cards thresh_image = Ok (cnts_sort, cnt_is_card) ∧
    length cnts_sort = length cnt_is_card ∧
    cnts_sort ≡ₚ (findContours thresh_image).1 ∧
    Forall (λ f, f = 0 ∨ f = 1) cnt_is_card ∧
    ((findContours thresh_image).1 = [] → cnts_sort = [] ∧ cnt_is_card = []).
Proof.
  intros Hcv. destruct (findContours thresh_image) as [cnts hier] eqn:Hfc.
  destruct (decide (cnts = [])) as [->|Hne].
  { exists [], []. rewrite (find_cards_empty _ _ Hfc). by repeat split. }
  destruct (findContours_hier cv Hcv _ _ _ Hfc Hne) as (hs & -> & Hlen).
  destruct (find_cards_run thresh_image cnts hs Hfc Hlen Hne)
    as (cs & flags & Hrun & Hlc & Hlf & Hlook).
  exists cs, flags. split; [done|]. split; [lia|]. simpl.
  assert (Hidx : length (index_sort cnts) = length cnts).
  { by rewrite index_sort_perm, length_seq. }
  split; [|split; [|done]].
  - assert (Hcs : cs = map (λ j, default [] (cnts !! j)) (index_sort cnts)).
    { apply list_eq. intros k.
      change (map ?f ?l') with (f <$> l'). rewrite list_lookup_fmap.
      destruct (index_sort cnts !! k) as [j|] eqn:Hk;
        cbn [fmap option_fmap option_map].
      - destruct (Hlook k j Hk) as (c & h & Hc & _ & Hck & _). by rewrite Hck, Hc.
      - apply lookup_ge_None. apply lookup_ge_None in Hk. lia. }
    rewrite Hcs, index_sort_perm. by rewrite tabulate_lookup.
  - apply Forall_lookup_2. intros k f Hf.
    assert (Hk : (k < length (index_sort cnts))%nat).
    { apply lookup_lt_Some in Hf. lia. }
    destruct (lookup_lt_is_Some_2 _ _ Hk) as [j Hj].
    destruct (Hlook k j Hj) as (c & h & _ & _ & _ & Hfk).
    rewrite Hf in Hfk. inversion Hfk. destruct (card_test c h); auto.
Qed.

Lemma find_cards_parallel_witness :
  ∃ cnts_sort cnt_is_card,
    find_cards (cv := RefCV.cv) card_mask = Ok (cnts_sort, cnt_is_card) ∧
    length cnts_sort = length cnt_is_card ∧
    cnts_sort ≡ₚ (RefCV.findContours card_mask).1 ∧
    Forall (λ f, f = 0 ∨ f = 1) cnt_is_card ∧
    ((RefCV.findContours card_mask).1 = [] → cnts_sort = [] ∧ cnt_is_card = []).
Proof.
  apply (find_cards_parallel (cv := RefCV.cv) card_mask). apply RefCV_spec.
Defined.

(** C2: every contour found in the mask appears in the result, at the
    position its index takes in the area ordering, and its flag there
    is 1 exactly when its area lies strictly between 25000 and 120000,
    it has no parent, and its simplification at 1% of the perimeter has
    4 vertices; otherwise the flag is 0, in particular whenever the area
    is outside the band. *)
Theorem find_cards_flags `{cv : OpenCV} (thresh_image : Gray) :
  OpenCVSpec cv →
  ∃ cnts_sort cnt_is_card,
    find_cards thresh_image = Ok (cnts_sort, cnt_is_card) ∧
    ∀ j c, (findContours thresh_image).1 !! j = Some c →
      ∃ hier h k,
        (findContours thresh_image).2 = Some hier ∧ hier !! j = Some h ∧
        index_sort (findContours thresh_image).1 !! k = Some j ∧
        cnts_sort !! k = Some c ∧
        (cnt_is_card !! k = Some 1 ↔ card_candidate c h) ∧
        (cnt_is_card !! k = Some 0 ↔ ¬ card_candidate c h) ∧
        (¬ (CARD_MIN_AREA < contourArea c ∧ contourArea c < CARD_MAX_AREA)%Q →
         cnt_is_card !! k = Some 0).
Proof.
  intros Hcv. destruct (findContours thresh_image) as [cnts hier] eqn:Hfc.
  destruct (decide (cnts = [])) as [->|Hne].
  { exists [], []. rewrite (find_cards_empty _ _ Hfc). split; [done|].
    intros j c Hj. done. }
  destruct (findContours_hier cv Hcv _ _ _ Hfc Hne) as (hs & -> & Hlen).
  destruct (find_cards_run thresh_image cnts hs Hfc Hlen Hne)
    as (cs & flags & Hrun & Hlc & Hlf & Hlook).
  exists cs, flags. split; [done|]. simpl. intros j c Hj.
  assert (Hin : j ∈ index_sort cnts).
  { rewrite index_sort_perm. apply elem_of_seq. apply lookup_lt_Some in Hj. lia. }
  apply list_elem_of_lookup_1 in Hin as [k Hk].
  destruct (Hlook k j Hk) as (c' & h & Hc' & Hh & Hck & Hfk).
  rewrite Hj in Hc'. inversion Hc'; subst c'.
  exists hs, h, k. rewrite Hfk, <- card_test_candidate.
  repeat split; try done.
  - destruct (card_test c h); [done | intros [=]].
  - by intros ->.
  - destruct (card_test c h); [intros [=] | done].
  - destruct (card_test c h); [done | intros _; done].
  - intros Hband. destruct (card_test c h) eqn:Ht; [|done].
    apply card_test_candidate in Ht as (? & ? & _). tauto.
Qed.

Lemma find_cards_flags_witness :
  ∃ cnts_sort cnt_is_card,
    find_cards (cv := RefCV.cv) card_mask = Ok (cnts_sort, cnt_is_card) ∧
    ∀ j c, (RefCV.findContours card_mask).1 !! j = Some c →
      ∃ hier h k,
        (RefCV.findContours card_mask).2 = Some hier ∧ hier !! j = Some h ∧
        index_sort (cv := RefCV.cv) (RefCV.findContours card_mask).1 !! k = Some j ∧
        cnts_sort !! k = Some c ∧
        (cnt_is_card !! k = Some 1 ↔ card_candidate (H := RefCV.cv) c h) ∧
        (cnt_is_card !! k = Some 0 ↔ ¬ card_candidate (H := RefCV.cv) c h) ∧
        (¬ (CARD_MIN_AREA < RefCV.contourArea c ∧
            RefCV.contourArea c < CARD_MAX_AREA)%Q →
         cnt_is_card !! k = Some 0).
Proof.
  apply (find_cards_flags (cv := RefCV.cv) card_mask). apply RefCV_spec.
Defined.

(** The white 160x220 mask holds one contour and it is flagged: area
    159 * 219 = 34821, no parent, four vertices. *)
Example find_cards_card_mask :
  find_cards (cv := RefCV.cv) card_mask = Ok ([card_contour], [1]).
Proof. vm_compute. reflexivity. Qed.

(** A frame-filling blob of 400x400 has area 159201 > 120000: not flagged. *)
Example find_cards_too_large :
  find_cards (cv := RefCV.cv) (flat 400 400 255)
    = Ok ([RefCV.frame_contour 400 400], [0]).
Proof. vm_compute. reflexivity. Qed.

(** ** Extremal points *)

Lemma argmin_from_spec (l : list Z) (bi : nat) (b : Z) (i : nat) :
  (argmin_from bi b i l = bi ∧ ∀ x, x ∈ l → b ≤ x) ∨
  (∃ d v, argmin_from bi b i l = (i + d)%nat ∧ l !! d = Some v ∧ v < b ∧
     (∀ j x, l !! j = Some x → v ≤ x) ∧
     (∀ j x, (j < d)%nat → l !! j = Some x → v < x)).
Proof.
  revert bi b i. induction l as [|x l IH]; intros bi b i; cbn [argmin_from].
  - left. split; [done|]. intros x Hx. by apply elem_of_nil in Hx.
  - destruct (Z.ltb_spec x b) as [Hlt|Hge].
    + right. destruct (IH i x (S i)) as [[Hk Hall]|(d & v & Hk & Hd & Hv & Hmin & Hfirst)].
      * exists 0%nat, x. rewrite Hk. split; [f_equal; lia|]. split; [done|].
        split; [done|]. split.
        -- intros [|j] y Hy; simpl in Hy; [inversion Hy; lia|].
           apply Hall. by eapply list_elem_of_lookup_2.
        -- intros j y Hj. lia.
      * exists (S d), v. rewrite Hk. split; [lia|]. split; [done|].
        split; [lia|]. split.
        -- intros [|j] y Hy; simpl in Hy; [inversion Hy; lia|]. by eapply Hmin.
        -- intros [|j] y Hj Hy; simpl in Hy; [inversion Hy; lia|].
           eapply Hfirst; [|done]. lia.
    + destruct (IH bi b (S i)) as [[Hk Hall]|(d & v & Hk & Hd & Hv & Hmin & Hfirst)].
      * left. split; [done|]. intros y Hy.
        apply elem_of_cons in Hy as [->|Hy]; [lia | by apply Hall].
      * right. exists (S d), v. rewrite Hk. split; [lia|]. split; [done|].
        split; [done|]. split.
        -- intros [|j] y Hy; simpl in Hy; [inversion Hy; lia|]. by eapply Hmin.
        -- intros [|j] y Hj Hy; simpl in Hy; [inversion Hy; lia|].
           eapply Hfirst; [|done]. lia.
Qed.

Lemma argmin_spec (l : list Z) :
  l ≠ [] →
  ∃ k v, argmin l = Ok k ∧ l !! k = Some v ∧
    (∀ j x, l !! j = Some x → v ≤ x) ∧
    (∀ j x, (j < k)%nat → l !! j = Some x → v < x).
Proof.
  destruct l as [|x l]; [done|]. intros _. unfold argmin.
  destruct (argmin_from_spec l 0 x 1) as [[Hk Hall]|(d & v & Hk & Hd & Hv & Hmin & Hfirst)].
  - exists 0%nat, x. rewrite Hk. repeat split; try done.
    + intros [|j] y Hy; simpl in Hy; [inversion Hy; lia|].
      apply Hall. by eapply list_elem_of_lookup_2.
    + intros j y Hj. lia.
  - exists (S d), v. rewrite Hk. repeat split; try done.
    + intros [|j] y Hy; simpl in Hy; [inversion Hy; lia|]. by eapply Hmin.
    + intros [|j] y Hj Hy; simpl in Hy; [inversion Hy; lia|].
      eapply Hfirst; [|done]. lia.
Qed.

(** How the two searches move under a change of the compared values. *)
Lemma argmin_from_antitone (ψ : Z → Z) (l : list Z) bi b i :
  (∀ x y, (ψ x <? ψ y) = (y <? x)) →
  argmin_from bi (ψ b) i (map ψ l) = argmax_from bi b i l.
Proof.
  intros Hψ. revert bi b i. induction l as [|x l IH]; intros bi b i; [done|].
  cbn [map argmin_from argmax_from]. rewrite Hψ. by destruct (b <? x).
Qed.

Lemma argmax_from_antitone (ψ : Z → Z) (l : list Z) bi b i :
  (∀ x y, (ψ x <? ψ y) = (y <? x)) →
  argmax_from bi (ψ b) i (map ψ l) = argmin_from bi b i l.
Proof.
  intros Hψ. revert bi b i. induction l as [|x l IH]; intros bi b i; [done|].
  cbn [map argmin_from argmax_from]. rewrite Hψ. by destruct (x <? b).
Qed.

Lemma argmin_from_monotone (φ : Z → Z) (l : list Z) bi b i :
  (∀ x y, (φ x <? φ y) = (x <? y)) →
  argmin_from bi (φ b) i (map φ l) = argmin_from bi b i l.
Proof.
  intros Hφ. revert bi b i. induction l as [|x l IH]; intros bi b i; [done|].
  cbn [map argmin_from]. rewrite Hφ. by destruct (x <? b).
Qed.

Lemma argmax_from_monotone (φ : Z → Z) (l : list Z) bi b i :
  (∀ x y, (φ x <? φ y) = (x <? y)) →
  argmax_from bi (φ b) i (map φ l) = argmax_from bi b i l.
Proof.
  intros Hφ. revert bi b i. induction l as [|x l IH]; intros bi b i; [done|].
  cbn [map argmax_from]. rewrite Hφ. by destruct (b <? x).
Qed.

Lemma argmin_antitone ψ l :
  (∀ x y, (ψ x <? ψ y) = (y <? x)) → argmin (map ψ l) = argmax l.
Proof.
  intros Hψ. destruct l as [|x l]; [done|]. cbn [map argmin argmax].
  by rewrite argmin_from_antitone.
Qed.

Lemma argmax_antitone ψ l :
  (∀ x y, (ψ x <? ψ y) = (y <? x)) → argmax (map ψ l) = argmin l.
Proof.
  intros Hψ. destruct l as [|x l]; [done|]. cbn [map argmin argmax].
  by rewrite argmax_from_antitone.
Qed.

Lemma argmin_monotone φ l :
  (∀ x y, (φ x <? φ y) = (x <? y)) → argmin (map φ l) = argmin l.
Proof.
  intros Hφ. destruct l as [|x l]; [done|]. cbn [map argmin].
  by rewrite argmin_from_monotone.
Qed.

Lemma argmax_monotone φ l :
  (∀ x y, (φ x <? φ y) = (x <? y)) → argmax (map φ l) = argmax l.
Proof.
  intros Hφ. destruct l as [|x l]; [done|]. cbn [map argmax].
  by rewrite argmax_from_monotone.
Qed.

Lemma opp_antitone (x y : Z) : (- x <? - y) = (y <? x).
Proof. destruct (Z.ltb_spec (- x) (- y)), (Z.ltb_spec y x); lia. Qed.

Lemma lookup_map_Some {A B} (f : A → B) (l : list A) k v :
  map f l !! k = Some v → ∃ p, l !! k = Some p ∧ v = f p.
Proof.
  change (map f l) with (f <$> l). rewrite list_lookup_fmap.
  destruct (l !! k) as [p|]; [|done]. intros [= <-]. eauto.
Qed.

Lemma lookup_map_of {A B} (f : A → B) (l : list A) k p :
  l !! k = Some p → map f l !! k = Some (f p).
Proof.
  intros H. change (map f l) with (f <$> l). by rewrite list_lookup_fmap, H.
Qed.

Lemma argmin_map_spec (f : Pt → Z) (pts : list Pt) :
  pts ≠ [] →
  ∃ k p, argmin (map f pts) = Ok k ∧ pts !! k = Some p ∧
    (∀ j q, pts !! j = Some q → f p ≤ f q) ∧
    (∀ j q, (j < k)%nat → pts !! j = Some q → f p < f q).
Proof.
  intros Hne.
  destruct (argmin_spec (map f pts)) as (k & v & Hk & Hv & Hmin & Hfirst).
  { by destruct pts. }
  apply lookup_map_Some in Hv as (p & Hp & ->).
  exists k, p. repeat split; try done.
  - intros j q Hq. apply (Hmin j). by apply lookup_map_of.
  - intros j q Hj Hq. apply (Hfirst j); [done|]. by apply lookup_map_of.
Qed.

Lemma argmax_map_spec (f : Pt → Z) (pts : list Pt) :
  pts ≠ [] →
  ∃ k p, argmax (map f pts) = Ok k ∧ pts !! k = Some p ∧
    (∀ j q, pts !! j = Some q → f q ≤ f p) ∧
    (∀ j q, (j < k)%nat → pts !! j = Some q → f q < f p).
Proof.
  intros Hne.
  destruct (argmin_map_spec (λ p, - f p) pts Hne) as (k & p & Hk & Hp & Hmin & Hfirst).
  exists k, p. split.
  - rewrite <- Hk, <- (argmin_antitone Z.opp) by apply opp_antitone.
    by rewrite map_map.
  - split; [done|]. split.
    + intros j q Hq. specialize (Hmin j q Hq). simpl in Hmin. lia.
    + intros j q Hj Hq. specialize (Hfirst j q Hj Hq). simpl in Hfirst. lia.
Qed.

(** The four extremal points exist for a non-empty corner list; their
    indices are those of [np.argmin] and [np.argmax]. *)
Lemma corners_run (pts : list Pt) :
  pts ≠ [] →
  ∃ i1 i2 i3 i4 tl br tr bl,
    argmin (map (λ p : Pt, p.1 + p.2) pts) = Ok i1 ∧ pts !! i1 = Some tl ∧
    argmax (map (λ p : Pt, p.1 + p.2) pts) = Ok i2 ∧ pts !! i2 = Some br ∧
    argmin (map (λ p : Pt, p.2 - p.1) pts) = Ok i3 ∧ pts !! i3 = Some tr ∧
    argmax (map (λ p : Pt, p.2 - p.1) pts) = Ok i4 ∧ pts !! i4 = Some bl ∧
    corners pts = Ok (tl, tr, br, bl) ∧
    first_min (λ p, p.1 + p.2) pts tl ∧ first_max (λ p, p.1 + p.2) pts br ∧
    first_min (λ p, p.2 - p.1) pts tr ∧ first_max (λ p, p.2 - p.1) pts bl.
Proof.
  intros Hne.
  destruct (argmin_map_spec (λ p, p.1 + p.2) pts Hne) as (i1 & tl & H1 & Htl & Hm1 & Hf1).
  destruct (argmax_map_spec (λ p, p.1 + p.2) pts Hne) as (i2 & br & H2 & Hbr & Hm2 & Hf2).
  destruct (argmin_map_spec (λ p, p.2 - p.1) pts Hne) as (i3 & tr & H3 & Htr & Hm3 & Hf3).
  destruct (argmax_map_spec (λ p, p.2 - p.1) pts Hne) as (i4 & bl & H4 & Hbl & Hm4 & Hf4).
  exists i1, i2, i3, i4, tl, br, tr, bl.
  repeat (split; [done|]). split.
  - unfold corners, getitem, mbind, res_bind.
    rewrite H1, Htl, H2, Hbr, H3, Htr, H4, Hbl. done.
  - split; [by exists i1|]. split; [by exists i2|]. split; [by exists i3 | by exists i4].
Qed.

(** ** The source quadrilateral of [flattener] *)

Lemma first_min_flip (pts : list Pt) (p : Pt) :
  first_min (λ p, p.2 - p.1) pts p → first_max (λ p, p.1 - p.2) pts p.
Proof.
  intros (i & Hi & Hmin & Hfirst). exists i. split; [done|]. split.
  - intros j q Hq. specialize (Hmin j q Hq). simpl in *. lia.
  - intros j q Hj Hq. specialize (Hfirst j q Hj Hq). simpl in *. lia.
Qed.

Lemma first_max_flip (pts : list Pt) (p : Pt) :
  first_max (λ p, p.2 - p.1) pts p → first_min (λ p, p.1 - p.2) pts p.
Proof.
  intros (i & Hi & Hmax & Hfirst). exists i. split; [done|]. split.
  - intros j q Hq. specialize (Hmax j q Hq). simpl in *. lia.
  - intros j q Hj Hq. specialize (Hfirst j q Hj Hq). simpl in *. lia.
Qed.

Lemma temp_rect_portrait (pts : list Pt) (w h : Z) tl tr br bl :
  corners pts = Ok (tl, tr, br, bl) → 0 < h → 5 * w ≤ 4 * h →
  temp_rect pts w h = Ok [tl; tr; br; bl].
Proof.
  intros Hc Hh Hp. unfold temp_rect. rewrite Hc. cbn [mbind res_bind].
  destruct (Z.leb_spec (5 * w) (4 * h)); [|lia].
  destruct (Z.leb_spec (6 * h) (5 * w)); [lia|].
  destruct (Z.ltb_spec (4 * h) (5 * w)); [lia|]. done.
Qed.

Lemma temp_rect_landscape (pts : list Pt) (w h : Z) tl tr br bl :
  corners pts = Ok (tl, tr, br, bl) → 0 < h → 6 * h ≤ 5 * w →
  temp_rect pts w h = Ok [bl; tl; tr; br].
Proof.
  intros Hc Hh Hl. unfold temp_rect. rewrite Hc. cbn [mbind res_bind].
  destruct (Z.leb_spec (5 * w) (4 * h)); [lia|].
  destruct (Z.leb_spec (6 * h) (5 * w)); [|lia].
  destruct (Z.ltb_spec (4 * h) (5 * w)); [|lia].
  destruct (Z.ltb_spec (5 * w) (6 * h)); [lia|]. done.
Qed.

(** C3 (as amended): for four corners and a portrait or landscape
    bounding box, top-left and bottom-right are the first points of
    least and greatest x+y, top-right is the first point of greatest
    x-y (least y-x) and bottom-left the first point of least x-y; the
    source quadrilateral is [tl; tr; br; bl] in the portrait case and
    [bl; tl; tr; br] in the landscape case. *)
Theorem temp_rect_roles (pts : list Pt) (w h : Z) :
  length pts = 4%nat → 0 < h →
  5 * w ≤ 4 * h ∨ 6 * h ≤ 5 * w →
  ∃ tl tr br bl,
    first_min (λ p, p.1 + p.2) pts tl ∧ first_max (λ p, p.1 + p.2) pts br ∧
    first_max (λ p, p.1 - p.2) pts tr ∧ first_min (λ p, p.1 - p.2) pts bl ∧
    (5 * w ≤ 4 * h → temp_rect pts w h = Ok [tl; tr; br; bl]) ∧
    (6 * h ≤ 5 * w → temp_rect pts w h = Ok [bl; tl; tr; br]).
Proof.
  intros Hlen Hh _.
  destruct (corners_run pts) as
    (i1 & i2 & i3 & i4 & tl & br & tr & bl & _ & _ & _ & _ & _ & _ & _ & _
       & Hc & Htl & Hbr & Htr & Hbl).
  { by destruct pts. }
  exists tl, tr, br, bl.
  split; [done|]. split; [done|].
  split; [by apply first_min_flip|]. split; [by apply first_max_flip|].
  split; intros Hcls.
  - by apply temp_rect_portrait.
  - by apply temp_rect_landscape.
Qed.

Lemma temp_rect_roles_witness :
  ∃ tl tr br bl : Pt,
    first_min (λ p, p.1 + p.2) upright_card tl ∧
    first_max (λ p, p.1 + p.2) upright_card br ∧
    first_max (λ p, p.1 - p.2) upright_card tr ∧
    first_min (λ p, p.1 - p.2) upright_card bl ∧
    (5 * 200 ≤ 4 * 300 → temp_rect upright_card 200 300 = Ok [tl; tr; br; bl]) ∧
    (6 * 300 ≤ 5 * 200 → temp_rect upright_card 200 300 = Ok [bl; tl; tr; br]).
Proof.
  apply (temp_rect_roles upright_card 200 300).
  - reflexivity.
  - lia.
  - left. lia.
Defined.

(** C3, the claim as worded fails: on the upright card the top-right
    role goes to (199, 0), the point of greatest x-y, not to the point of
    least x-y, which is (0, 299) and gets the bottom-left role. *)
Lemma temp_rect_top_right_is_max :
  5 * 200 ≤ 4 * 300 ∧
  temp_rect upright_card 200 300 = Ok [(0, 0); (199, 0); (199, 299); (0, 299)] ∧
  first_min (λ p, p.1 - p.2) upright_card (0, 299) ∧
  first_max (λ p, p.1 - p.2) upright_card (199, 0) ∧
  ¬ first_min (λ p, p.1 - p.2) upright_card (199, 0).
Proof.
  split; [lia|]. split; [reflexivity|]. split; [|split].
  - exists 1%nat. split; [reflexivity|].
    split; intros; unfold upright_card in *; each_lookup; simpl; lia.
  - exists 3%nat. split; [reflexivity|].
    split; intros; unfold upright_card in *; each_lookup; simpl; lia.
  - intros (i & _ & Hmin & _).
    specialize (Hmin 1%nat (0, 299) eq_refl). simpl in Hmin. lia.
Qed.

(** ** Quarter turns *)

Lemma getitem_map {A B} (f : A → B) (l : list A) i p :
  l !! i = Some p → getitem (map f l) i = Ok (f p).
Proof. intros H. unfold getitem. by rewrite (lookup_map_of f l i p). Qed.

Lemma sum_rot90 a b (pts : list Pt) :
  map (λ p : Pt, p.1 + p.2) (map (rot90 a b) pts)
    = map (λ t, a + b - t) (map (λ p : Pt, p.2 - p.1) pts).
Proof.
  rewrite !map_map. apply map_ext. intros [x y]. unfold rot90. simpl. lia.
Qed.

Lemma diff_rot90 a b (pts : list Pt) :
  map (λ p : Pt, p.2 - p.1) (map (rot90 a b) pts)
    = map (λ t, t + (b - a)) (map (λ p : Pt, p.1 + p.2) pts).
Proof.
  rewrite !map_map. apply map_ext. intros [x y]. unfold rot90. simpl. lia.
Qed.

Lemma reflect_antitone (c x y : Z) : (c - x <? c - y) = (y <? x).
Proof. destruct (Z.ltb_spec (c - x) (c - y)), (Z.ltb_spec y x); lia. Qed.

Lemma shift_monotone (c x y : Z) : (x + c <? y + c) = (x <? y).
Proof. destruct (Z.ltb_spec (x + c) (y + c)), (Z.ltb_spec x y); lia. Qed.

(** A quarter turn moves every role one corner on: the turned
    bottom-left becomes top-left, top-left becomes top-right, and so on. *)
Lemma corners_rot90 a b (pts : list Pt) tl tr br bl :
  corners pts = Ok (tl, tr, br, bl) →
  corners (map (rot90 a b) pts)
    = Ok (rot90 a b bl, rot90 a b tl, rot90 a b tr, rot90 a b br).
Proof.
  intros Hc.
  assert (Hne : pts ≠ []) by (by intros ->).
  destruct (corners_run pts Hne) as
    (i1 & i2 & i3 & i4 & tl' & br' & tr' & bl' & H1 & Htl & H2 & Hbr & H3 & Htr
       & H4 & Hbl & Hc' & _).
  rewrite Hc in Hc'. inversion Hc'; subst tl' tr' br' bl'.
  unfold corners. rewrite sum_rot90, diff_rot90.
  rewrite (argmin_antitone (λ t, a + b - t)) by (intros; apply reflect_antitone).
  rewrite (argmax_antitone (λ t, a + b - t)) by (intros; apply reflect_antitone).
  rewrite (argmin_monotone (λ t, t + (b - a))) by (intros; apply shift_monotone).
  rewrite (argmax_monotone (λ t, t + (b - a))) by (intros; apply shift_monotone).
  rewrite H1, H2, H3, H4. cbn [mbind res_bind].
  rewrite (getitem_map _ pts i4 bl) by done. cbn [mbind res_bind].
  rewrite (getitem_map _ pts i3 tr) by done. cbn [mbind res_bind].
  rewrite (getitem_map _ pts i1 tl) by done. cbn [mbind res_bind].
  rewrite (getitem_map _ pts i2 br) by done. done.
Qed.

Lemma map_rot180 a b (pts : list Pt) :
  map (rot180 a b) pts = map (rot90 a b) (map (rot90 a b) pts).
Proof. by rewrite map_map. Qed.

Lemma map_rot270 a b (pts : list Pt) :
  map (rot270 a b) pts = map (rot90 a b) (map (rot180 a b) pts).
Proof. by rewrite map_map. Qed.

(** C4 (as amended): for a card whose bounding box is portrait, the
    quarter, half and three-quarter turns of its corners (the box of the
    quarter turns being the transposed one) are rectified from the same
    physical quadrilateral, read in the same cyclic order, but started
    either at the same corner or at the opposite one: the rectified
    content agrees up to a half turn of the card.  The orientation class
    alternates between portrait and landscape. *)
Theorem temp_rect_rotations (pts : list Pt) (w h a b : Z) :
  pts ≠ [] → 0 < w → 0 < h → 5 * w ≤ 4 * h →
  ∃ quad,
    temp_rect pts w h = Ok quad ∧ length quad = 4%nat ∧
    temp_rect (map (rot90 a b) pts) h w = Ok (map (rot90 a b) (rotate 2 quad)) ∧
    temp_rect (map (rot180 a b) pts) w h = Ok (map (rot180 a b) (rotate 2 quad)) ∧
    temp_rect (map (rot270 a b) pts) h w = Ok (map (rot270 a b) quad) ∧
    6 * w ≤ 5 * h.
Proof.
  intros Hne Hw Hh Hp.
  destruct (corners_run pts Hne) as
    (_ & _ & _ & _ & tl & br & tr & bl & _ & _ & _ & _ & _ & _ & _ & _ & Hc & _).
  exists [tl; tr; br; bl].
  pose proof (corners_rot90 a b _ _ _ _ _ Hc) as Hc1.
  pose proof (corners_rot90 a b _ _ _ _ _ Hc1) as Hc2.
  pose proof (corners_rot90 a b _ _ _ _ _ Hc2) as Hc3.
  split; [by apply temp_rect_portrait|]. split; [done|].
  split; [|split; [|split; [|lia]]].
  - rewrite (temp_rect_landscape _ _ _ _ _ _ _ Hc1) by lia. done.
  - rewrite map_rot180. rewrite (temp_rect_portrait _ _ _ _ _ _ _ Hc2) by lia. done.
  - rewrite map_rot270, map_rot180.
    rewrite (temp_rect_landscape _ _ _ _ _ _ _ Hc3) by lia. done.
Qed.

Lemma temp_rect_rotations_witness :
  ∃ quad,
    temp_rect upright_card 200 300 = Ok quad ∧ length quad = 4%nat ∧
    temp_rect (map (rot90 249 50) upright_card) 300 200
      = Ok (map (rot90 249 50) (rotate 2 quad)) ∧
    temp_rect (map (rot180 249 50) upright_card) 200 300
      = Ok (map (rot180 249 50) (rotate 2 quad)) ∧
    temp_rect (map (rot270 249 50) upright_card) 300 200
      = Ok (map (rot270 249 50) quad) ∧
    6 * 200 ≤ 5 * 300.
Proof.
  apply (temp_rect_rotations upright_card 200 300 249 50).
  - discriminate.
  - lia.
  - lia.
  - lia.
Defined.

(** C4, the claim as worded fails: after a half turn of the upright
    card about its centre (99.5, 149.5) the top-left role goes to the
    corner that was bottom-right, so the rotated corners do not keep the
    roles of their originals; and after a quarter turn the box 300x200
    is classed landscape where the original 200x300 was portrait. *)
Lemma half_turn_changes_roles :
  temp_rect upright_card 200 300 = Ok [(0, 0); (199, 0); (199, 299); (0, 299)] ∧
  map (rot180 249 50) [(0, 0); (199, 0); (199, 299); (0, 299)]
    = [(199, 299); (0, 299); (0, 0); (199, 0)] ∧
  temp_rect (map (rot180 249 50) upright_card) 200 300
    = Ok [(0, 0); (199, 0); (199, 299); (0, 299)] ∧
  ¬ same_roles (rot180 249 50) upright_card 200 300 200 300 ∧
  (5 * 200 <=? 4 * 300) = true ∧ (5 * 300 <=? 4 * 200) = false.
Proof.
  split; [reflexivity|]. split; [reflexivity|]. split; [reflexivity|].
  split; [|split; reflexivity].
  intros (quad & Hq & Hr).
  assert (Hq' : temp_rect upright_card 200 300
                = Ok [(0, 0); (199, 0); (199, 299); (0, 299)]) by reflexivity.
  rewrite Hq' in Hq. inversion Hq; subst quad. clear Hq Hq'.
  assert (Hr' : temp_rect (map (rot180 249 50) upright_card) 200 300
                = Ok [(0, 0); (199, 0); (199, 299); (0, 299)]) by reflexivity.
  rewrite Hr' in Hr. discriminate Hr.
Qed.

(** ** From a flagged contour to a card *)

Lemma find_cards_flagged `{cv : OpenCV} (m : Gray) cs flags i c :
  OpenCVSpec cv →
  find_cards m = Ok (cs, flags) → cs !! i = Some c → flags !! i = Some 1 →
  ∃ h, card_candidate c h.
Proof.
  intros Hcv Hrun Hc Hf. destruct (findContours m) as [cnts hier] eqn:Hfc.
  destruct (decide (cnts = [])) as [->|Hne].
  { rewrite (find_cards_empty _ _ Hfc) in Hrun. inversion Hrun; subst. done. }
  destruct (findContours_hier cv Hcv _ _ _ Hfc Hne) as (hs & -> & Hlen).
  destruct (find_cards_run m cnts hs Hfc Hlen Hne)
    as (cs' & flags' & Hrun' & Hlc & Hlf & Hlook).
  rewrite Hrun in Hrun'. inversion Hrun'; subst cs' flags'.
  assert (Hi : (i < length (index_sort cnts))%nat).
  { rewrite index_sort_perm, length_seq. apply lookup_lt_Some in Hc. lia. }
  destruct (lookup_lt_is_Some_2 _ _ Hi) as [j Hj].
  destruct (Hlook i j Hj) as (c' & h & _ & _ & Hc' & Hf').
  rewrite Hc in Hc'. inversion Hc'; subst c'.
  exists h. apply card_test_candidate.
  rewrite Hf in Hf'. destruct (card_test c h); [done | inversion Hf'].
Qed.

Lemma temp_rect_total (pts : list Pt) (w h : Z) :
  length pts = 4%nat →
  ∃ quad, temp_rect pts w h = Ok quad ∧ length quad = 4%nat.
Proof.
  intros Hlen.
  destruct pts as [|p0 [|p1 [|p2 [|p3 [|? ?]]]]]; try done.
  destruct (corners_run [p0; p1; p2; p3]) as
    (_ & _ & _ & _ & tl & br & tr & bl & _ & _ & _ & _ & _ & _ & _ & _ & Hc & _);
    [done|].
  unfold temp_rect. rewrite Hc. cbn [mbind res_bind].
  unfold getitem. cbn [lookup list_lookup mbind res_bind].
  destruct (5 * w <=? 4 * h), (6 * h <=? 5 * w),
    ((4 * h <? 5 * w) && (5 * w <? 6 * h)),
    (p1.2 <=? p3.2), (p3.2 <? p1.2);
    eexists; (split; [reflexivity | reflexivity]).
Qed.

Lemma flattener_rect `{cv : OpenCV} (image : Frame) (pts : list Pt) (w h : Z) :
  OpenCVSpec cv → length pts = 4%nat →
  ∃ warped, flattener image pts w h = Ok warped ∧ rect maxHeight maxWidth warped.
Proof.
  intros Hcv Hlen. destruct (temp_rect_total pts w h Hlen) as (quad & Hq & _).
  unfold flattener. rewrite Hq. cbn [mbind res_bind].
  eexists. split; [reflexivity|].
  apply (cvtColor_rect cv Hcv), (warpPerspective_rect cv Hcv).
Qed.

Lemma length_slice {A} (lo hi : nat) (l : list A) :
  (hi ≤ length l)%nat → length (slice lo hi l) = (hi - lo)%nat.
Proof. intros H. unfold slice. rewrite length_take, length_drop. lia. Qed.

Lemma rect_slice2 {A} (a : img A) h w r0 r1 c0 c1 :
  rect h w a → (r1 ≤ h)%nat → (c1 ≤ w)%nat →
  rect (r1 - r0) (c1 - c0) (slice2 r0 r1 c0 c1 a).
Proof.
  intros [Hl Hw] Hr Hc. unfold slice2. split.
  - rewrite length_map. apply length_slice. lia.
  - apply Forall_map. unfold slice at 2. apply Forall_take, Forall_drop.
    eapply Forall_impl; [exact Hw|]. intros r Hlen. cbn beta in Hlen |- *.
    apply length_slice. lia.
Qed.

Lemma rect_lookup {A} (a : img A) h w r c :
  rect h w a → (r < h)%nat → (c < w)%nat →
  ∃ row x, a !! r = Some row ∧ row !! c = Some x.
Proof.
  intros [Hl Hw] Hr Hc.
  destruct (lookup_lt_is_Some_2 a r) as [row Hrow]; [lia|].
  destruct (lookup_lt_is_Some_2 row c) as [x Hx].
  { rewrite (Forall_lookup_1 _ _ _ _ Hw Hrow). done. }
  eauto.
Qed.

Lemma query_thresh_rect `{cv : OpenCV} (warped : Gray) :
  OpenCVSpec cv → rect maxHeight maxWidth warped →
  ∃ qt, query_thresh warped = Ok qt ∧ rect 336 128 qt.
Proof.
  intros Hcv Hw.
  pose proof (rect_slice2 warped _ _ 0 CORNER_HEIGHT 0 CORNER_WIDTH Hw) as Hcorner.
  unfold maxHeight, maxWidth, CORNER_HEIGHT, CORNER_WIDTH in Hcorner.
  specialize (Hcorner ltac:(lia) ltac:(lia)).
  change (84 - 0)%nat with 84%nat in Hcorner.
  change (32 - 0)%nat with 32%nat in Hcorner.
  destruct (resize_by_rect cv Hcv _ 4 4 _ _ Hcorner) as (zoom & Hzoom & Hz); try lia.
  change (4 * 84)%nat with 336%nat in Hz. change (4 * 32)%nat with 128%nat in Hz.
  destruct (rect_lookup zoom _ _ 15 64 Hz) as (row & white & Hrow & Hpx); try lia.
  rewrite (query_thresh_run warped zoom row white Hzoom Hrow Hpx).
  eexists. split; [reflexivity|]. by apply (threshold_rect cv Hcv).
Qed.

Lemma Qsuit_sized_rect `{cv : OpenCV} (qt : Gray) :
  OpenCVSpec cv → rect 336 128 qt →
  ∃ r, Qsuit_sized qt = Ok r ∧
       match r with Some g => rect SUIT_HEIGHT SUIT_WIDTH g | None => True end.
Proof.
  intros Hcv Hqt.
  pose proof (rect_slice2 qt _ _ 186 336 0 128 Hqt ltac:(lia) ltac:(lia)) as Hs.
  change (336 - 186)%nat with 150%nat in Hs.
  change (128 - 0)%nat with 128%nat in Hs.
  unfold Qsuit_sized.
  set (Qsuit := slice2 186 336 0 128 qt) in *.
  pose proof (boundingRect_inside cv Hcv Qsuit) as Hin.
  destruct (findContours Qsuit) as [cnts hier].
  case_decide as Hlen; [|by exists None].
  destruct (sorted_reverse contourArea cnts) as [|c cs] eqn:Hsort; [done|].
  assert (Hc : c ∈ cnts).
  { rewrite <- (sorted_reverse_perm contourArea cnts), Hsort. apply list_elem_of_here. }
  specialize (Hin c _ _ Hs Hc).
  unfold getitem. cbn [lookup list_lookup mbind res_bind].
  destruct (boundingRect c) as [[[x2 y2] w2] h2].
  destruct Hin as (Hx & Hy & Hw & Hh & Hxw & Hyh).
  pose proof (rect_slice2 Qsuit _ _ (Z.to_nat y2) (Z.to_nat (y2 + h2))
                (Z.to_nat x2) (Z.to_nat (x2 + w2)) Hs ltac:(lia) ltac:(lia)) as Hroi.
  destruct (resize_to_rect cv Hcv _ SUIT_WIDTH SUIT_HEIGHT _ _ Hroi)
    as (sized & Hsized & Hrect); try (unfold SUIT_WIDTH, SUIT_HEIGHT; lia).
  rewrite Hsized. cbn [mbind res_bind]. by exists (Some sized).
Qed.

Lemma preprocess_card_run `{cv : OpenCV} (cnt : Contour) (image : Frame) :
  OpenCVSpec cv →
  length (approxPolyDP cnt (0.01 * arcLength cnt true)%Q true) = 4%nat →
  ∃ qCard,
    preprocess_card cnt image = Ok qCard ∧
    contour qCard = cnt ∧
    corner_pts qCard = approxPolyDP cnt (0.01 * arcLength cnt true)%Q true ∧
    rect maxHeight maxWidth (warp qCard) ∧
    (suit_img qCard = [] ∨ rect SUIT_HEIGHT SUIT_WIDTH (suit_img qCard)) ∧
    best_suit_match qCard = "Unknown"%string ∧ suit_diff qCard = 0.
Proof.
  intros Hcv Hlen.
  unfold preprocess_card, preprocess_card_body.
  set (pts := approxPolyDP cnt (0.01 * arcLength cnt true)%Q true) in *.
  destruct (boundingRect cnt) as [[[x y] w] h].
  destruct (flattener_rect image pts w h Hcv Hlen) as (warped & Hflat & Hwarp).
  destruct (query_thresh_rect warped Hcv Hwarp) as (qt & Hqt & Hqtr).
  destruct (Qsuit_sized_rect qt Hcv Hqtr) as (sized & Hsized & Hsr).
  unfold mbind, St_bind, modify, lift, gets.
  rewrite decide_False by lia. rewrite Hflat. cbn [warp set_warp].
  rewrite Hqt, Hsized.
  destruct sized as [g|]; cbn beta iota; eexists; (split; [reflexivity|]);
    cbn [contour corner_pts warp suit_img best_suit_match suit_diff
         set_suit_img set_warp set_center set_width_height set_corner_pts
         set_contour Query_card_init];
    (split; [reflexivity|]); (split; [reflexivity|]); (split; [exact Hwarp|]);
    (split; [|split; reflexivity]).
  - by right.
  - by left.
Qed.

(** ** What [match_card] can return *)

Lemma row_diff_nonneg (r1 r2 : list Z) :
  0 ≤ foldr Z.add 0 (zip_with (λ x y, Z.abs (x - y)) r1 r2).
Proof.
  revert r2. induction r1 as [|x r1 IH]; intros [|y r2]; simpl; try lia.
  specialize (IH r2). lia.
Qed.

Lemma img_diff_nonneg (a b : Gray) :
  0 ≤ np_sum (zip_with (zip_with (λ x y, Z.abs (x - y))) a b).
Proof.
  revert b. induction a as [|r a IH]; intros [|r' b]; try (unfold np_sum; simpl; lia).
  cbn [zip_with]. rewrite np_sum_cons.
  pose proof (row_diff_nonneg r r'). specialize (IH b). lia.
Qed.

Lemma absdiff_nonneg (a : Gray) (b : option Gray) d :
  absdiff a b = Ok d → 0 ≤ np_sum d.
Proof.
  unfold absdiff. destruct b as [b|]; [|done].
  case_decide; [|done]. intros [= <-]. apply img_diff_nonneg.
Qed.

Lemma match_step_inv (P : string → Prop) T best q best' q' :
  match_step T best q = (Ok best', q') →
  P (name T) →
  0 ≤ best.1 ∧ (∀ n, best.2 = Some n → P n) →
  0 ≤ best'.1 ∧ (∀ n, best'.2 = Some n → P n).
Proof.
  unfold match_step, mbind, St_bind, gets, lift.
  destruct (absdiff (suit_img q) (img_of T)) as [d|e] eqn:Hd; [|done].
  intros Hstep HT [Hpos Hname].
  pose proof (absdiff_nonneg _ _ _ Hd) as Hsum.
  destruct (Z.quot (np_sum d) 255 <? best.1); inversion Hstep; subst; [|done].
  split; simpl.
  - apply Z.quot_pos; lia.
  - by intros n [= <-].
Qed.

Lemma for_match_inv (P : string → Prop) ts best q best' q' :
  for_St ts match_step best q = (Ok best', q') →
  Forall (λ T, P (name T)) ts →
  0 ≤ best.1 ∧ (∀ n, best.2 = Some n → P n) →
  0 ≤ best'.1 ∧ (∀ n, best'.2 = Some n → P n).
Proof.
  intros Hrun Hts. revert best q Hrun.
  induction Hts as [|T ts HT _ IH]; intros best q Hrun Hinv.
  - inversion Hrun; subst. done.
  - cbn [for_St] in Hrun. unfold mbind, St_bind in Hrun.
    destruct (match_step T best q) as [[b1|e] q1] eqn:Hstep; [|done].
    eapply IH; [exact Hrun|]. by eapply match_step_inv.
Qed.

Lemma match_card_result (q : Query_card) (ts : list Train_suits) label score :
  (match_card q ts).1 = Ok (label, score) →
  0 ≤ score ∧ (label = "Unknown"%string ∨ label ∈ map name ts).
Proof.
  unfold match_card, match_card_body, mbind, St_bind, gets.
  case_decide as Hlen.
  - destruct (for_St ts match_step (10000, None) q) as [[[d n]|e] q1] eqn:Hrun;
      [|done].
    destruct (for_match_inv (λ n, n ∈ map name ts) ts _ _ _ _ Hrun) as [Hpos Hname].
    { apply Forall_forall. intros T HT. change (map name ts) with (name <$> ts).
      by apply list_elem_of_fmap_2. }
    { split; [simpl; lia | done]. }
    simpl in Hpos, Hname.
    destruct (d <? SUIT_DIFF_MAX).
    + destruct n as [n|]; simpl; [|done]. intros [= <- <-]. split; [done|].
      right. by apply Hname.
    + simpl. intros [= <- <-]. split; [done | by left].
  - simpl. intros [= <- <-]. split; [lia | by left].
Qed.

Lemma match_card_returns (q : Query_card) (ts : list Train_suits) :
  suit_img q = [] ∨ rect SUIT_HEIGHT SUIT_WIDTH (suit_img q) →
  Forall (λ T, ∃ t, img_of T = Some t ∧ rect SUIT_HEIGHT SUIT_WIDTH t) ts →
  is_Ok (match_card q ts).1.
Proof.
  intros [Hnil|Hg] Hts.
  - by rewrite match_card_empty.
  - assert (Hne : suit_img q ≠ []).
    { destruct Hg as [Hl _]. intros Heq. by rewrite Heq in Hl. }
    rewrite match_card_run; [|done|].
    + destruct (running_best_spec (suit_img q) ts (10000, None))
        as [[-> _]|(i & T & _ & -> & _)]; [done|].
      by destruct (Tsuit_diff (suit_img q) T <? SUIT_DIFF_MAX).
    + eapply Forall_impl; [exact Hts|]. intros T (t & Ht & Hrt).
      rewrite Ht. unfold absdiff.
      rewrite (shape_rect _ _ _ Hg), (shape_rect _ _ _ Hrt)
        by (unfold SUIT_HEIGHT; lia).
      by rewrite decide_True.
Qed.

(** ** The card record *)

(** C8: a contour that [find_cards] flagged is turned by
    [preprocess_card] into a card with 4 corner points, a 200x300
    rectified image and a suit glyph that is empty or 70x100; whatever
    [match_card] returns for it against the loaded templates has a score
    of at least 0 and a label among Spades, Diamonds, Clubs, Hearts and
    "Unknown", and [match_card] does return when every template is a
    70x100 image. *)
Theorem card_invariants `{cv : OpenCV} (thresh_image : Gray) (image : Frame)
    (cnts_sort : list Contour) (cnt_is_card : list Z) (i : nat) (c : Contour)
    (imread : string → option Gray) (filepath : string) :
  OpenCVSpec cv →
  find_cards thresh_image = Ok (cnts_sort, cnt_is_card) →
  cnts_sort !! i = Some c → cnt_is_card !! i = Some 1 →
  ∃ qCard train_suits,
    preprocess_card c image = Ok qCard ∧
    load_suits imread filepath = Ok train_suits ∧
    length (corner_pts qCard) = 4%nat ∧
    rect 300 200 (warp qCard) ∧
    (suit_img qCard = [] ∨ rect 100 70 (suit_img qCard)) ∧
    (∀ label score,
       (match_card qCard train_suits).1 = Ok (label, score) →
       0 ≤ score ∧ label ∈ labels) ∧
    (Forall (λ T, ∃ t, img_of T = Some t ∧ rect 100 70 t) train_suits →
     is_Ok (match_card qCard train_suits).1).
Proof.
  intros Hcv Hfind Hc Hflag.
  destruct (find_cards_flagged thresh_image _ _ i c Hcv Hfind Hc Hflag)
    as (h & _ & _ & _ & Hlen).
  destruct (preprocess_card_run c image Hcv Hlen)
    as (q & Hq & _ & Hpts & Hwarp & Hsuit & _).
  exists q. eexists. split; [done|]. split; [apply load_suits_run|].
  split; [by rewrite Hpts|]. split; [exact Hwarp|]. split; [exact Hsuit|]. split.
  - intros label score Hres.
    destruct (match_card_result _ _ _ _ Hres) as [Hpos Hlab].
    split; [done|]. unfold labels. apply elem_of_app.
    destruct Hlab as [->|Hlab]; [right; apply list_elem_of_here|].
    left. by rewrite map_map in Hlab.
  - intros Hts. by apply match_card_returns.
Qed.

Lemma card_invariants_witness :
  ∃ qCard train_suits,
    preprocess_card (cv := RefCV.cv) card_contour card_frame = Ok qCard ∧
    load_suits blank_files "Card_Imgs/" = Ok train_suits ∧
    length (corner_pts qCard) = 4%nat ∧
    rect 300 200 (warp qCard) ∧
    (suit_img qCard = [] ∨ rect 100 70 (suit_img qCard)) ∧
    (∀ label score,
       (match_card qCard train_suits).1 = Ok (label, score) →
       0 ≤ score ∧ label ∈ labels) ∧
    (Forall (λ T, ∃ t, img_of T = Some t ∧ rect 100 70 t) train_suits →
     is_Ok (match_card qCard train_suits).1).
Proof.
  apply (card_invariants (cv := RefCV.cv) card_mask card_frame
           [card_contour] [1] 0 card_contour blank_files "Card_Imgs/").
  - apply RefCV_spec.
  - vm_compute. reflexivity.
  - reflexivity.
  - reflexivity.
Defined.

(** * Further properties *)

(** ** The area ordering of [find_cards] *)

Lemma StronglySorted_lookup_lt {A} (R : A → A → Prop) (l : list A) k1 k2 x y :
  StronglySorted R l → (k1 < k2)%nat →
  l !! k1 = Some x → l !! k2 = Some y → R x y.
Proof.
  intros Hs. revert k1 k2. induction Hs as [|a l Hs IH Ha]; intros k1 k2 Hk H1 H2.
  - done.
  - destruct k2 as [|k2]; [lia|]. simpl in H2. destruct k1 as [|k1]; simpl in H1.
    + inversion H1; subst. eapply Forall_lookup_1; [exact Ha | exact H2].
    + eapply (IH k1 k2); [lia | done | done].
Qed.

Lemma insert_desc_before (key : nat → Q) (x : nat) (l : list nat) :
  StronglySorted (before key) l → Forall (λ y, (x < y)%nat) l →
  StronglySorted (before key) (insert_desc key x l).
Proof.
  intros Hs. induction Hs as [|y l Hs IH Hy]; intros Hx; cbn [insert_desc].
  - repeat constructor.
  - inversion Hx as [|? ? Hxy Hxl]; subst.
    destruct (Qle_bool (key y) (key x)) eqn:Hle.
    + apply Qle_bool_iff in Hle. constructor; [by constructor|].
      assert (Hbx : before key x y).
      { apply Qle_lt_or_eq in Hle as [Hlt|Heq]; [by left | by right]. }
      constructor; [done|].
      apply Forall_forall. intros z Hz.
      pose proof (proj1 (Forall_forall _ _) Hy z Hz) as Hyz.
      pose proof (proj1 (Forall_forall _ _) Hxl z Hz) as Hxz.
      assert (Hzx : (key z <= key x)%Q).
      { destruct Hyz as [Hlt|[Heq _]].
        - apply Qlt_le_weak. eapply Qlt_le_trans; [exact Hlt | exact Hle].
        - rewrite Heq. exact Hle. }
      apply Qle_lt_or_eq in Hzx as [Hlt|Heq]; [by left | by right].
    + assert (Hlt : (key x < key y)%Q).
      { apply Qnot_le_lt. intros Hc. apply Qle_bool_iff in Hc. congruence. }
      constructor; [by apply IH|].
      rewrite insert_desc_perm. constructor; [by left | done].
Qed.

Lemma sorted_reverse_seq_before (key : nat → Q) (s n : nat) :
  StronglySorted (before key) (sorted_reverse key (seq s n)).
Proof.
  revert s. induction n as [|n IH]; intros s; [constructor|].
  cbn [seq]. unfold sorted_reverse. cbn [foldr].
  apply insert_desc_before; [apply IH|].
  fold (sorted_reverse key (seq (S s) n)). rewrite sorted_reverse_perm.
  apply Forall_forall. intros y Hy. apply elem_of_seq in Hy. lia.
Qed.

(** X2: the index order behind [find_cards] is stable: of two contours
    the one with the larger area comes first, and of two with equal
    areas the one [findContours] listed first. *)
Theorem index_sort_stable `{cv : OpenCV} (cnts : list Contour) (k1 k2 j1 j2 : nat) :
  (k1 < k2)%nat →
  index_sort cnts !! k1 = Some j1 → index_sort cnts !! k2 = Some j2 →
  before (λ i, contourArea (default [] (cnts !! i))) j1 j2.
Proof.
  intros Hk H1 H2.
  exact (StronglySorted_lookup_lt _ _ _ _ _ _
           (sorted_reverse_seq_before _ 0 (length cnts)) Hk H1 H2).
Qed.

Lemma before_le (key : nat → Q) i j : before key i j → (key j <= key i)%Q.
Proof. intros [Hlt|[Heq _]]; [by apply Qlt_le_weak | by rewrite Heq; apply Qle_refl]. Qed.

(** X1: the contours [find_cards] returns are ordered from largest to
    smallest area. *)
Theorem find_cards_sorted `{cv : OpenCV} (thresh_image : Gray) :
  OpenCVSpec cv →
  ∃ cnts_sort cnt_is_card,
    find_cards thresh_image = Ok (cnts_sort, cnt_is_card) ∧
    ∀ k1 k2 c1 c2, (k1 < k2)%nat →
      cnts_sort !! k1 = Some c1 → cnts_sort !! k2 = Some c2 →
      (contourArea c2 <= contourArea c1)%Q.
Proof.
  intros Hcv. destruct (findContours thresh_image) as [cnts hier] eqn:Hfc.
  destruct (decide (cnts = [])) as [->|Hne].
  { exists [], []. rewrite (find_cards_empty _ _ Hfc). split; [done|].
    intros k1 k2 c1 c2 _ H1. done. }
  destruct (findContours_hier cv Hcv _ _ _ Hfc Hne) as (hs & -> & Hlen).
  destruct (find_cards_run thresh_image cnts hs Hfc Hlen Hne)
    as (cs & flags & Hrun & Hlc & Hlf & Hlook).
  exists cs, flags. split; [done|]. intros k1 k2 c1 c2 Hk H1 H2.
  assert (Hidx : length (index_sort cnts) = length cnts).
  { by rewrite index_sort_perm, length_seq. }
  destruct (lookup_lt_is_Some_2 (index_sort cnts) k1) as [j1 Hj1].
  { apply lookup_lt_Some in H1. lia. }
  destruct (lookup_lt_is_Some_2 (index_sort cnts) k2) as [j2 Hj2].
  { apply lookup_lt_Some in H2. lia. }
  destruct (Hlook k1 j1 Hj1) as (c1' & _ & Hc1 & _ & Hk1 & _).
  destruct (Hlook k2 j2 Hj2) as (c2' & _ & Hc2 & _ & Hk2 & _).
  rewrite H1 in Hk1. rewrite H2 in Hk2. inversion Hk1; inversion Hk2; subst c1' c2'.
  pose proof (before_le _ _ _
    (StronglySorted_lookup_lt _ _ _ _ _ _
       (sorted_reverse_seq_before (λ i, contourArea (default [] (cnts !! i)))
          0 (length cnts)) Hk Hj1 Hj2)) as Hle.
  cbn beta in Hle. by rewrite Hc1, Hc2 in Hle.
Qed.

Lemma find_cards_sorted_witness :
  ∃ cnts_sort cnt_is_card,
    find_cards (cv := RefCV.cv) card_mask = Ok (cnts_sort, cnt_is_card) ∧
    ∀ k1 k2 c1 c2, (k1 < k2)%nat →
      cnts_sort !! k1 = Some c1 → cnts_sort !! k2 = Some c2 →
      (RefCV.contourArea c2 <= RefCV.contourArea c1)%Q.
Proof.
  apply (find_cards_sorted (cv := RefCV.cv) card_mask). apply RefCV_spec.
Defined.

Lemma index_sort_stable_witness :
  before (λ i, RefCV.contourArea (default [] ([small_contour; large_contour] !! i)))
    1 0.
Proof.
  apply (index_sort_stable (cv := RefCV.cv) [small_contour; large_contour] 0 1 1 0).
  - lia.
  - vm_compute. reflexivity.
  - vm_compute. reflexivity.
Defined.

(** ** [flattener] on other inputs *)

Lemma first_min_elem (f : Pt → Z) (pts : list Pt) (p : Pt) :
  first_min f pts p → p ∈ pts ∧ ∀ q, q ∈ pts → f p ≤ f q.
Proof.
  intros (i & Hi & Hmin & _). split; [by eapply list_elem_of_lookup_2|].
  intros q Hq. apply list_elem_of_lookup_1 in Hq as [j Hj]. by eapply Hmin.
Qed.

Lemma first_max_elem (f : Pt → Z) (pts : list Pt) (p : Pt) :
  first_max f pts p → p ∈ pts ∧ ∀ q, q ∈ pts → f q ≤ f p.
Proof.
  intros (i & Hi & Hmax & _). split; [by eapply list_elem_of_lookup_2|].
  intros q Hq. apply list_elem_of_lookup_1 in Hq as [j Hj]. by eapply Hmax.
Qed.

Lemma elem_of_box (p : Pt) x0 y0 x1 y1 :
  p ∈ box x0 y0 x1 y1 →
  p = (x0, y0) ∨ p = (x1, y0) ∨ p = (x1, y1) ∨ p = (x0, y1).
Proof.
  unfold box. rewrite !elem_of_cons, elem_of_nil. tauto.
Qed.

Lemma box_elems x0 y0 x1 y1 :
  (x0, y0) ∈ box x0 y0 x1 y1 ∧ (x1, y0) ∈ box x0 y0 x1 y1 ∧
  (x1, y1) ∈ box x0 y0 x1 y1 ∧ (x0, y1) ∈ box x0 y0 x1 y1.
Proof. unfold box. rewrite !elem_of_cons. tauto. Qed.

(** The extremal points of the corners of an upright rectangle, listed
    in any order. *)
Lemma corners_box (pts : list Pt) x0 y0 x1 y1 :
  x0 < x1 → y0 < y1 → pts ≡ₚ box x0 y0 x1 y1 →
  corners pts = Ok ((x0, y0), (x1, y0), (x1, y1), (x0, y1)).
Proof.
  intros Hx Hy Hp.
  assert (Hne : pts ≠ []).
  { intros ->. by apply Permutation_nil_l in Hp. }
  destruct (corners_run pts Hne) as
    (_ & _ & _ & _ & tl & br & tr & bl & _ & _ & _ & _ & _ & _ & _ & _
       & Hc & Htl & Hbr & Htr & Hbl).
  apply first_min_elem in Htl as [Htl Mtl]. apply first_max_elem in Hbr as [Hbr Mbr].
  apply first_min_elem in Htr as [Htr Mtr]. apply first_max_elem in Hbl as [Hbl Mbl].
  destruct (box_elems x0 y0 x1 y1) as (E1 & E2 & E3 & E4).
  rewrite <- Hp in E1, E2, E3, E4. rewrite Hp in Htl, Hbr, Htr, Hbl.
  pose proof (Mtl _ E1) as A1. pose proof (Mbr _ E3) as A2.
  pose proof (Mtr _ E2) as A3. pose proof (Mbl _ E4) as A4.
  rewrite Hc. repeat f_equal.
  - apply elem_of_box in Htl as [-> | [-> | [-> | ->]]]; simpl in A1; try done; lia.
  - apply elem_of_box in Htr as [-> | [-> | [-> | ->]]]; simpl in A3; try done; lia.
  - apply elem_of_box in Hbr as [-> | [-> | [-> | ->]]]; simpl in A2; try done; lia.
  - apply elem_of_box in Hbl as [-> | [-> | [-> | ->]]]; simpl in A4; try done; lia.
Qed.

(** X3: the corners of an upright rectangle may be given in any
    order: with a portrait box the source quadrilateral is top-left,
    top-right, bottom-right, bottom-left, with a landscape box it is
    bottom-left, top-left, top-right, bottom-right. *)
Theorem temp_rect_any_order (pts : list Pt) (w h x0 y0 x1 y1 : Z) :
  x0 < x1 → y0 < y1 → pts ≡ₚ box x0 y0 x1 y1 → 0 < h →
  (5 * w ≤ 4 * h →
   temp_rect pts w h = Ok [(x0, y0); (x1, y0); (x1, y1); (x0, y1)]) ∧
  (6 * h ≤ 5 * w →
   temp_rect pts w h = Ok [(x0, y1); (x0, y0); (x1, y0); (x1, y1)]).
Proof.
  intros Hx Hy Hp Hh. pose proof (corners_box pts _ _ _ _ Hx Hy Hp) as Hc.
  split; intros Hcls.
  - by apply temp_rect_portrait.
  - by apply temp_rect_landscape.
Qed.

Lemma temp_rect_any_order_witness :
  (5 * 200 ≤ 4 * 300 →
   temp_rect [(199, 299); (0, 0); (0, 299); (199, 0)] 200 300
     = Ok [(0, 0); (199, 0); (199, 299); (0, 299)]) ∧
  (6 * 300 ≤ 5 * 200 →
   temp_rect [(199, 299); (0, 0); (0, 299); (199, 0)] 200 300
     = Ok [(0, 299); (0, 0); (199, 0); (199, 299)]).
Proof.
  apply (temp_rect_any_order [(199, 299); (0, 0); (0, 299); (199, 0)]
           200 300 0 0 199 299).
  - lia.
  - lia.
  - unfold box.
    apply (Permutation_trans (l' := [(0, 0); (199, 299); (0, 299); (199, 0)]));
      [apply perm_swap|].
    apply perm_skip.
    apply (Permutation_trans (l' := [(199, 299); (199, 0); (0, 299)]));
      [apply perm_skip, perm_swap|].
    apply (Permutation_trans (l' := [(199, 0); (199, 299); (0, 299)]));
      [apply perm_swap | reflexivity].
  - lia.
Defined.

Lemma diamond_test (w h : Z) :
  diamond w h → (4 * h <? 5 * w) && (5 * w <? 6 * h) = true.
Proof.
  intros [H1 H2]. apply andb_true_iff. split; apply Z.ltb_lt; lia.
Qed.

(** X4: with a diamond bounding box [temp_rect] needs four points: on
    an empty list it raises [ValueError] (nothing to take the extremes
    of), on one to three points [IndexError]. *)
Theorem temp_rect_too_few (pts : list Pt) (w h : Z) :
  diamond w h → (length pts < 4)%nat →
  temp_rect pts w h = Raise (if decide (pts = []) then ValueError else IndexError).
Proof.
  intros Hd Hlen. destruct pts as [|p0 pts]; [reflexivity|].
  rewrite decide_False by done.
  destruct (corners_run (p0 :: pts)) as
    (_ & _ & _ & _ & tl & br & tr & bl & _ & _ & _ & _ & _ & _ & _ & _ & Hc & _);
    [done|].
  unfold temp_rect. rewrite Hc. cbn [mbind res_bind].
  rewrite (diamond_test w h Hd).
  destruct pts as [|p1 [|p2 [|p3 ?]]]; simpl in Hlen; try lia; reflexivity.
Qed.

Lemma temp_rect_too_few_witness :
  temp_rect [(0, 0); (10, 0); (5, 9)] 11 10
    = Raise (if decide ([(0, 0); (10, 0); (5, 9)] = ([] : list Pt))
             then ValueError else IndexError).
Proof.
  apply (temp_rect_too_few [(0, 0); (10, 0); (5, 9)] 11 10).
  - unfold diamond. lia.
  - simpl. lia.
Defined.

(** X5: with a portrait or landscape box any non-empty point list
    will do: the result has four entries, each one of the given
    points. *)
Theorem temp_rect_extremes_only (pts : list Pt) (w h : Z) :
  pts ≠ [] → 0 < h → 5 * w ≤ 4 * h ∨ 6 * h ≤ 5 * w →
  ∃ quad, temp_rect pts w h = Ok quad ∧ length quad = 4%nat ∧
          Forall (λ p, p ∈ pts) quad.
Proof.
  intros Hne Hh Hcls.
  destruct (corners_run pts Hne) as
    (i1 & i2 & i3 & i4 & tl & br & tr & bl & _ & Htl & _ & Hbr & _ & Htr & _ & Hbl
       & Hc & _).
  apply list_elem_of_lookup_2 in Htl, Hbr, Htr, Hbl.
  destruct Hcls as [Hp|Hl].
  - exists [tl; tr; br; bl]. split; [by apply temp_rect_portrait|].
    split; [done|]. by repeat constructor.
  - exists [bl; tl; tr; br]. split; [by apply temp_rect_landscape|].
    split; [done|]. by repeat constructor.
Qed.

Lemma temp_rect_extremes_only_witness :
  ∃ quad, temp_rect [(0, 0); (10, 0); (5, 30)] 11 31 = Ok quad ∧
          length quad = 4%nat ∧
          Forall (λ p, p ∈ [(0, 0); (10, 0); (5, 30)]) quad.
Proof.
  apply (temp_rect_extremes_only [(0, 0); (10, 0); (5, 30)] 11 31).
  - discriminate.
  - lia.
  - left. lia.
Defined.

(** X6: with a diamond box the extremal points play no part: the
    result is a rearrangement of the first four points, chosen by
    comparing the heights of the second and the fourth, and further
    points are ignored. *)
Theorem temp_rect_diamond (p0 p1 p2 p3 : Pt) (rest : list Pt) (w h : Z) :
  diamond w h →
  temp_rect (p0 :: p1 :: p2 :: p3 :: rest) w h
    = Ok (if p1.2 <=? p3.2 then [p1; p0; p3; p2] else [p0; p3; p2; p1]).
Proof.
  intros Hd.
  destruct (corners_run (p0 :: p1 :: p2 :: p3 :: rest)) as
    (_ & _ & _ & _ & tl & br & tr & bl & _ & _ & _ & _ & _ & _ & _ & _ & Hc & _);
    [done|].
  unfold temp_rect. rewrite Hc. cbn [mbind res_bind].
  rewrite (diamond_test w h Hd).
  destruct Hd as [H1 H2].
  destruct (Z.leb_spec (5 * w) (4 * h)); [lia|].
  destruct (Z.leb_spec (6 * h) (5 * w)); [lia|].
  unfold getitem. cbn [lookup list_lookup mbind res_bind].
  destruct (Z.leb_spec p1.2 p3.2), (Z.ltb_spec p3.2 p1.2); try lia; reflexivity.
Qed.

Lemma temp_rect_diamond_witness :
  temp_rect [(50, 0); (0, 40); (60, 110); (110, 60)] 111 111
    = Ok (if (40 <=? 60) then [(0, 40); (50, 0); (110, 60); (60, 110)]
          else [(50, 0); (110, 60); (60, 110); (0, 40)]).
Proof.
  apply (temp_rect_diamond (50, 0) (0, 40) (60, 110) (110, 60) [] 111 111).
  unfold diamond. lia.
Defined.

(** X7: [flattener] returns a 200x300 image for four points with any
    bounding box, and for any non-empty point list when the box is
    portrait or landscape. *)
Theorem flattener_returns `{cv : OpenCV} (image : Frame) (pts : list Pt) (w h : Z) :
  OpenCVSpec cv →
  length pts = 4%nat ∨ (pts ≠ [] ∧ 0 < h ∧ (5 * w ≤ 4 * h ∨ 6 * h ≤ 5 * w)) →
  ∃ warped, flattener image pts w h = Ok warped ∧ rect 300 200 warped.
Proof.
  intros Hcv Hpts.
  assert (Hq : ∃ quad, temp_rect pts w h = Ok quad).
  { destruct Hpts as [Hlen|(Hne & Hh & Hcls)].
    - destruct (temp_rect_total pts w h Hlen) as (quad & Hq & _). eauto.
    - destruct (corners_run pts Hne) as
        (_ & _ & _ & _ & tl & br & tr & bl & _ & _ & _ & _ & _ & _ & _ & _ & Hc & _).
      destruct Hcls; eexists;
        [by apply temp_rect_portrait | by apply temp_rect_landscape]. }
  destruct Hq as [quad Hq]. unfold flattener. rewrite Hq. cbn [mbind res_bind].
  eexists. split; [reflexivity|].
  apply (cvtColor_rect cv Hcv), (warpPerspective_rect cv Hcv).
Qed.

Lemma flattener_returns_witness :
  ∃ warped,
    flattener (cv := RefCV.cv) card_frame [(0, 0); (10, 0); (5, 30)] 11 31
      = Ok warped ∧ rect 300 200 warped.
Proof.
  apply (flattener_returns (cv := RefCV.cv) card_frame [(0, 0); (10, 0); (5, 30)] 11 31).
  - apply RefCV_spec.
  - right. split; [discriminate|]. split; [lia|]. left. lia.
Defined.

(** ** [match_card] on arbitrary images *)

Lemma match_step_ok_inv T best q b1 q1 :
  match_step T best q = (Ok b1, q1) →
  is_Ok (absdiff (suit_img q) (img_of T)) ∧ q1 = q ∧
  b1 = better (suit_img q) best T.
Proof.
  intros Hstep.
  destruct (absdiff (suit_img q) (img_of T)) as [d|e] eqn:Hd.
  - rewrite match_step_run in Hstep by (by rewrite Hd).
    inversion Hstep; subst. done.
  - rewrite (match_step_raise _ _ _ e) in Hstep by done. done.
Qed.

Lemma match_step_raise_inv T best q e q1 :
  match_step T best q = (Raise e, q1) → e = cv2_error.
Proof.
  unfold match_step, mbind, St_bind, gets, lift, absdiff.
  destruct (img_of T) as [t|]; [|by intros [= <-]].
  case_decide; [|by intros [= <-]].
  by case_match.
Qed.

Lemma for_match_ok_inv ts best q b1 q1 :
  for_St ts match_step best q = (Ok b1, q1) →
  Forall (λ T, is_Ok (absdiff (suit_img q) (img_of T))) ts ∧
  b1 = running_best (suit_img q) ts best.
Proof.
  revert best. induction ts as [|T ts IH]; intros best Hrun.
  - inversion Hrun; subst. by split.
  - cbn [for_St] in Hrun. unfold mbind, St_bind in Hrun.
    destruct (match_step T best q) as [[b|e] q'] eqn:Hstep; [|done].
    apply match_step_ok_inv in Hstep as (Hok & -> & ->).
    destruct (IH _ Hrun) as [Hts ->]. split; [by constructor | done].
Qed.

Lemma for_match_raise_inv ts best q e q1 :
  for_St ts match_step best q = (Raise e, q1) → e = cv2_error.
Proof.
  revert best. induction ts as [|T ts IH]; intros best Hrun; [done|].
  cbn [for_St] in Hrun. unfold mbind, St_bind in Hrun.
  destruct (match_step T best q) as [[b|e'] q'] eqn:Hstep.
  - apply match_step_ok_inv in Hstep as (_ & -> & _). by eapply IH.
  - inversion Hrun; subst. by eapply match_step_raise_inv.
Qed.

Lemma Tsuit_diff_nonneg (g : Gray) (T : Train_suits) : 0 ≤ Tsuit_diff g T.
Proof.
  unfold Tsuit_diff. destruct (absdiff g (img_of T)) as [d|e] eqn:Hd; [|done].
  apply Z.quot_pos; [by eapply absdiff_nonneg | lia].
Qed.

(** The running best either is untouched or carries the name of the
    template that set it, with a smaller score. *)
Lemma running_best_cases (g : Gray) (ts : list Train_suits) best :
  running_best g ts best = best ∨
  ∃ T, T ∈ ts ∧ running_best g ts best = (Tsuit_diff g T, Some (name T)) ∧
       Tsuit_diff g T < best.1.
Proof.
  destruct (running_best_spec g ts best) as [[Heq _]|(i & T & Hi & Heq & Hlt & _)].
  - by left.
  - right. exists T. split; [by eapply list_elem_of_lookup_2 | done].
Qed.

Lemma match_card_cases (q : Query_card) (ts : list Train_suits) :
  (suit_img q = [] ∧ (match_card q ts).1 = Ok ("Unknown"%string, 10000)) ∨
  (suit_img q ≠ [] ∧ ∃ e, (match_card q ts).1 = Raise e ∧ e = cv2_error ∧
     ¬ Forall (λ T, is_Ok (absdiff (suit_img q) (img_of T))) ts) ∨
  (suit_img q ≠ [] ∧
   Forall (λ T, is_Ok (absdiff (suit_img q) (img_of T))) ts ∧
   ∃ d n, running_best (suit_img q) ts (10000, None) = (d, n) ∧
     (match_card q ts).1 =
       Ok (if d <? SUIT_DIFF_MAX then default "Unknown"%string n
           else "Unknown"%string, d) ∧
     ((d <? SUIT_DIFF_MAX) = true → ∃ T, T ∈ ts ∧ n = Some (name T))).
Proof.
  destruct (decide (suit_img q = [])) as [Hnil|Hne].
  { left. split; [done|]. by rewrite match_card_empty. }
  right.
  destruct (for_St ts match_step (10000, None) q) as [[b|e] q1] eqn:Hrun.
  - right. apply for_match_ok_inv in Hrun as [Hts ->]. split; [done|].
    split; [done|].
    destruct (running_best (suit_img q) ts (10000, None)) as [d n] eqn:Hb.
    exists d, n. split; [done|].
    assert (Hn : (d <? SUIT_DIFF_MAX) = true → ∃ T, T ∈ ts ∧ n = Some (name T)).
    { intros Hd. apply Z.ltb_lt in Hd. unfold SUIT_DIFF_MAX in Hd.
      destruct (running_best_cases (suit_img q) ts (10000, None))
        as [Heq|(T & HT & Heq & _)]; rewrite Hb in Heq.
      - inversion Heq; subst. lia.
      - inversion Heq; subst. eauto. }
    split; [|done].
    rewrite match_card_run, Hb by done.
    destruct (d <? SUIT_DIFF_MAX) eqn:Hd; [|done].
    destruct (Hn eq_refl) as (T & _ & ->). done.
  - left. split; [done|]. exists e.
    pose proof (for_match_raise_inv _ _ _ _ _ Hrun) as ->.
    split; [|split; [done|]].
    + unfold match_card, match_card_body, mbind, St_bind, gets.
      rewrite decide_True by (by destruct (suit_img q)). by rewrite Hrun.
    + intros Hts. rewrite for_match_run in Hrun by done. done.
Qed.

(** X8: whatever the sizes of the images, a result of [match_card] has
    a score between 0 and the initial 10000; below 700 the label is the
    name of one of the templates, from 700 on it is "Unknown", and a
    card without glyph scores 10000. *)
Theorem match_card_score_range (qCard : Query_card) (train_suits : list Train_suits)
    (label : string) (score : Z) :
  (match_card qCard train_suits).1 = Ok (label, score) →
  0 ≤ score ≤ 10000 ∧
  (score < 700 → ∃ T, T ∈ train_suits ∧ label = name T) ∧
  (700 ≤ score → label = "Unknown"%string) ∧
  (suit_img qCard = [] → score = 10000).
Proof.
  intros Hres.
  destruct (match_card_cases qCard train_suits)
    as [[Hnil Hr]|[(Hne & e & Hr & _)|(Hne & Hts & d & n & Hb & Hr & Hn)]];
    rewrite Hr in Hres; [| done |].
  - inversion Hres; subst. repeat split; try lia; done.
  - inversion Hres; subst. clear Hres.
    assert (Hrange : 0 ≤ score ≤ 10000).
    { destruct (running_best_cases (suit_img qCard) train_suits (10000, None))
        as [Heq|(T & _ & Heq & Hlt)]; rewrite Hb in Heq; inversion Heq; subst.
      - lia.
      - pose proof (Tsuit_diff_nonneg (suit_img qCard) T). simpl in Hlt. lia. }
    split; [done|]. unfold SUIT_DIFF_MAX in *.
    destruct (Z.ltb_spec score 700) as [Hlt|Hge].
    + destruct (Hn eq_refl) as (T & HT & ->). simpl.
      split; [eauto|]. split; [lia | done].
    + split; [lia|]. split; done.
Qed.

Lemma match_card_score_range_witness :
  0 ≤ 0 ≤ 10000 ∧
  (0 < 700 → ∃ T, T ∈ near_blank_suits ∧ "Spades"%string = name T) ∧
  (700 ≤ 0 → "Spades"%string = "Unknown"%string) ∧
  (suit_img (card_with blank_glyph) = [] → 0 = 10000).
Proof.
  apply (match_card_score_range (card_with blank_glyph) near_blank_suits "Spades" 0).
  vm_compute. reflexivity.
Defined.

Lemma absdiff_ok_fits (g : Gray) (T : Train_suits) :
  is_Ok (absdiff g (img_of T)) ↔ fits g T.
Proof.
  unfold absdiff, fits. destruct (img_of T) as [t|].
  - case_decide; split; try done.
    + intros _. eauto.
    + intros (t' & [= <-] & Hs). done.
  - split; [done|]. by intros (t & Ht & _).
Qed.

(** X9: [match_card] returns exactly when the card has no glyph or
    every template holds an image of the glyph's shape; otherwise the
    exception is the one [absdiff] raises, and the name that is unbound
    before the first improvement is never read. *)
Theorem match_card_returns_iff (qCard : Query_card) (train_suits : list Train_suits) :
  (is_Ok (match_card qCard train_suits).1 ↔
   suit_img qCard = [] ∨ Forall (fits (suit_img qCard)) train_suits) ∧
  (∀ e, (match_card qCard train_suits).1 = Raise e → e = cv2_error).
Proof.
  assert (Hfits : Forall (λ T, is_Ok (absdiff (suit_img qCard) (img_of T))) train_suits
                  ↔ Forall (fits (suit_img qCard)) train_suits).
  { split; intros H; (eapply Forall_impl; [exact H|]); intros T HT;
      by apply absdiff_ok_fits. }
  destruct (match_card_cases qCard train_suits)
    as [[Hnil Hr]|[(Hne & e & Hr & -> & Hnot)|(Hne & Hts & d & n & _ & Hr & _)]];
    rewrite Hr.
  - split; [|done]. split; [by left | done].
  - split; [|by intros e [= <-]]. split; [done|].
    intros [Hnil|Hall]; [done|]. by apply Hnot, Hfits.
  - split; [|done]. split; [|done]. intros _. right. by apply Hfits.
Qed.

Lemma least_min (g : Gray) (ts : list Train_suits) (b d : Z) :
  least g ts (Z.min b d) = Z.min d (least g ts b).
Proof. induction ts as [|T ts IH]; simpl; [lia|]. rewrite IH. lia. Qed.

Lemma running_best_least (g : Gray) (ts : list Train_suits) best :
  (running_best g ts best).1 = least g ts best.1.
Proof.
  revert best. induction ts as [|T ts IH]; intros best; [done|].
  unfold running_best. cbn [foldl]. fold (running_best g ts (better g best T)).
  rewrite IH. simpl.
  assert (Hb : (better g best T).1 = Z.min best.1 (Tsuit_diff g T)).
  { unfold better. destruct (Z.ltb_spec (Tsuit_diff g T) best.1); simpl; lia. }
  rewrite Hb, least_min. done.
Qed.

Lemma least_perm (g : Gray) (ts ts' : list Train_suits) (b : Z) :
  ts ≡ₚ ts' → least g ts b = least g ts' b.
Proof.
  intros Hp. induction Hp as [|T ts ts' _ IH|T1 T2 ts|ts ts' ts'' _ IH1 _ IH2];
    simpl; [done | by rewrite IH | lia | by rewrite IH1].
Qed.

(** X10: the score does not depend on the order of the templates:
    listed in another order they give a result with the same score (the
    label can differ when two templates tie). *)
Theorem match_card_score_perm (qCard : Query_card) (ts ts' : list Train_suits)
    (label : string) (score : Z) :
  ts ≡ₚ ts' →
  (match_card qCard ts).1 = Ok (label, score) →
  ∃ label', (match_card qCard ts').1 = Ok (label', score) ∧
            (700 ≤ score → label' = label).
Proof.
  intros Hp Hres.
  destruct (match_card_cases qCard ts)
    as [[Hnil Hr]|[(Hne & e & Hr & _)|(Hne & Hts & d & n & Hb & Hr & _)]];
    rewrite Hr in Hres; [| done |].
  - inversion Hres; subst. exists "Unknown"%string.
    by rewrite match_card_empty.
  - inversion Hres; subst. clear Hres.
    destruct (match_card_cases qCard ts')
      as [[Hnil _]|[(_ & e & _ & _ & Hnot)|(_ & _ & d' & n' & Hb' & Hr' & _)]].
    + done.
    + exfalso. apply Hnot. by rewrite <- Hp.
    + assert (Hd : d' = score).
      { pose proof (running_best_least (suit_img qCard) ts (10000, None)) as H1.
        pose proof (running_best_least (suit_img qCard) ts' (10000, None)) as H2.
        rewrite Hb in H1. rewrite Hb' in H2. simpl in H1, H2.
        rewrite H1, H2. symmetry. by apply least_perm. }
      subst d'. eexists. split; [exact Hr'|].
      intros Hge. unfold SUIT_DIFF_MAX.
      destruct (Z.ltb_spec score 700); [lia | done].
Qed.

Lemma match_card_score_perm_witness :
  ∃ label',
    (match_card (card_with blank_glyph) (rotate 1 near_blank_suits)).1
      = Ok (label', 0) ∧ (700 ≤ 0 → label' = "Spades"%string).
Proof.
  apply (match_card_score_perm (card_with blank_glyph) near_blank_suits
           (rotate 1 near_blank_suits) "Spades" 0).
  - unfold near_blank_suits. cbn [rotate length Nat.modulo drop take app].
    apply Permutation_cons_append.
  - vm_compute. reflexivity.
Defined.

Lemma match_step_glyph T best (q q' : Query_card) :
  suit_img q = suit_img q' →
  (match_step T best q).1 = (match_step T best q').1.
Proof.
  intros Hg. unfold match_step, mbind, St_bind, gets, lift. rewrite Hg.
  destruct (absdiff (suit_img q') (img_of T)); [by case_match | done].
Qed.

Lemma for_match_glyph ts best (q q' : Query_card) :
  suit_img q = suit_img q' →
  (for_St ts match_step best q).1 = (for_St ts match_step best q').1.
Proof.
  intros Hg. revert best. induction ts as [|T ts IH]; intros best; [done|].
  cbn [for_St]. unfold mbind, St_bind.
  pose proof (match_step_glyph T best q q' Hg) as Hs.
  pose proof (read_only_match_step T best q) as R1.
  pose proof (read_only_match_step T best q') as R2.
  destruct (match_step T best q) as [r1 q1], (match_step T best q') as [r2 q2].
  simpl in Hs, R1, R2. subst. destruct r2; [apply IH | done].
Qed.

(** X11: the answer of [match_card] is decided by the glyph alone: two
    cards with the same [suit_img] get the same result, whatever their
    other fields hold. *)
Theorem match_card_glyph_only (q q' : Query_card) (train_suits : list Train_suits) :
  suit_img q = suit_img q' →
  (match_card q train_suits).1 = (match_card q' train_suits).1.
Proof.
  intros Hg. unfold match_card, match_card_body, mbind, St_bind, gets.
  rewrite Hg. case_decide; [|done].
  pose proof (for_match_glyph train_suits (10000, None) q q' Hg) as Hs.
  pose proof (read_only_for train_suits match_step (10000, None)
                read_only_match_step q) as R1.
  pose proof (read_only_for train_suits match_step (10000, None)
                read_only_match_step q') as R2.
  destruct (for_St train_suits match_step (10000, None) q) as [r1 q1],
           (for_St train_suits match_step (10000, None) q') as [r2 q2].
  simpl in Hs, R1, R2. subst. destruct r2 as [[d n]|e]; [|done].
  destruct (d <? SUIT_DIFF_MAX); [by destruct n | done].
Qed.

Lemma match_card_glyph_only_witness :
  (match_card (card_with blank_glyph) near_blank_suits).1
    = (match_card (set_center [3; 4] (card_with blank_glyph)) near_blank_suits).1.
Proof.
  apply (match_card_glyph_only (card_with blank_glyph)
           (set_center [3; 4] (card_with blank_glyph)) near_blank_suits).
  reflexivity.
Defined.

(** ** The instance without smoothing *)

Lemma FastCV_spec : OpenCVSpec FastCV.
Proof.
  destruct RefCV_spec as [H1 H2 H3 H4 H5 H6 H7].
  split; [exact H1 | exact H2 | exact H3 | exact H4 | exact H5 | exact H6 | exact H7].
Qed.

Lemma FastCV_blur : blur_keeps_shape FastCV.
Proof. intros a rows cols Hr. exact Hr. Qed.

(** ** [preprocess_image] on frames of any format *)

Lemma getitem_lt {A} (l : list A) (i : nat) :
  (i < length l)%nat → ∃ x, l !! i = Some x ∧ getitem l i = Ok x.
Proof.
  intros Hi. destruct (lookup_lt_is_Some_2 l i Hi) as [x Hx].
  exists x. split; [done|]. unfold getitem. by rewrite Hx.
Qed.

Lemma getitem_ge {A} (l : list A) (i : nat) :
  (length l ≤ i)%nat → getitem l i = Raise IndexError.
Proof. intros Hi. unfold getitem. by rewrite lookup_ge_None_2. Qed.

Lemma shape_rect_any {A} (a : img A) rows cols :
  rect rows cols a →
  (shape a).1 = rows ∧ ((0 < rows)%nat → (shape a).2 = cols) ∧
  (rows = 0%nat → (shape a).2 = 0%nat).
Proof.
  intros [Hl Hw]. unfold shape. destruct a as [|r a]; simpl in *.
  - subst. split; [done|]. split; [lia | done].
  - inversion Hw; subst. split; [done|]. split; [done | lia].
Qed.

(** X12: on a frame of [rows] rows and [cols] columns
    [preprocess_image] reads row [cols/100] and column [rows/2]; it
    returns when that position lies inside the frame and raises
    [IndexError] when it does not. *)
Theorem preprocess_image_returns_iff `{cv : OpenCV} (image : Frame) (rows cols : nat) :
  OpenCVSpec cv → rect rows cols image →
  ((cols / 100 < rows ∧ rows / 2 < cols)%nat →
   ∃ row bkg_level,
     cvtColor image !! (cols / 100)%nat = Some row ∧
     row !! (rows / 2)%nat = Some bkg_level ∧
     preprocess_image image
       = Ok (threshold (GaussianBlur (cvtColor image)) (bkg_level + BKG_THRESH)
               255 THRESH_BINARY)) ∧
  (¬ (cols / 100 < rows ∧ rows / 2 < cols)%nat →
   preprocess_image image = Raise IndexError).
Proof.
  intros Hcv Himg.
  destruct (cvtColor_rect cv Hcv image rows cols Himg) as [Hl Hw].
  destruct (shape_rect_any image rows cols Himg) as (Hs1 & Hs2 & Hs3).
  unfold preprocess_image.
  destruct (shape image) as [img_w img_h]. simpl in Hs1, Hs2, Hs3. subst img_w.
  split.
  - intros [Hr Hc]. rewrite Hs2 by lia.
    destruct (getitem_lt (cvtColor image) (cols / 100)) as (row & Hrow & Hg); [lia|].
    destruct (getitem_lt row (rows / 2)) as (bkg & Hbkg & Hg').
    { rewrite (Forall_lookup_1 _ _ _ _ Hw Hrow). done. }
    exists row, bkg. split; [done|]. split; [done|].
    rewrite Hg. cbn [mbind res_bind]. by rewrite Hg'.
  - intros Hout. destruct (decide (rows = 0%nat)) as [->|Hpos].
    { rewrite getitem_ge; [done | lia]. }
    rewrite Hs2 by lia.
    destruct (decide (cols / 100 < rows)%nat) as [Hr|Hr].
    + destruct (getitem_lt (cvtColor image) (cols / 100)) as (row & Hrow & Hg); [lia|].
      rewrite Hg. cbn [mbind res_bind]. rewrite getitem_ge; [done|].
      rewrite (Forall_lookup_1 _ _ _ _ Hw Hrow). lia.
    + rewrite getitem_ge; [done | lia].
Qed.

Lemma preprocess_image_returns_iff_witness :
  ((4 / 100 < 2 ∧ 2 / 2 < 4)%nat →
   ∃ (row : list Z) (bkg_level : Z),
     RefCV.cvtColor (flat 2 4 (7, 7, 7)) !! (4 / 100)%nat = Some row ∧
     row !! (2 / 2)%nat = Some bkg_level ∧
     preprocess_image (cv := RefCV.cv) (flat 2 4 (7, 7, 7))
       = Ok (RefCV.threshold (RefCV.GaussianBlur (RefCV.cvtColor (flat 2 4 (7, 7, 7))))
               (bkg_level + BKG_THRESH) 255 THRESH_BINARY)) ∧
  (¬ (4 / 100 < 2 ∧ 2 / 2 < 4)%nat →
   preprocess_image (cv := RefCV.cv) (flat 2 4 (7, 7, 7)) = Raise IndexError).
Proof.
  apply (preprocess_image_returns_iff (cv := RefCV.cv) (flat 2 4 (7, 7, 7)) 2 4).
  - apply RefCV_spec.
  - split; [reflexivity|]. repeat constructor.
Defined.

(** X13: the mask [preprocess_image] returns has the size of the
    frame, when smoothing keeps the size. *)
Theorem preprocess_image_shape `{cv : OpenCV} (image : Frame) (rows cols : nat)
    (thresh : Gray) :
  OpenCVSpec cv → blur_keeps_shape cv → rect rows cols image →
  preprocess_image image = Ok thresh → rect rows cols thresh.
Proof.
  intros Hcv Hblur Himg Hrun.
  pose proof (cvtColor_rect cv Hcv image rows cols Himg) as Hg.
  unfold preprocess_image in Hrun. destruct (shape image) as [img_w img_h].
  destruct (getitem (cvtColor image) (img_h / 100)) as [row|e]; [|done].
  cbn [mbind res_bind] in Hrun.
  destruct (getitem row (img_w / 2)) as [bkg|e]; [|done].
  cbn [mbind res_bind] in Hrun. inversion Hrun; subst.
  apply (threshold_rect cv Hcv), Hblur, Hg.
Qed.

Lemma preprocess_image_shape_witness : rect 5 5 (flat 5 5 0).
Proof.
  apply (preprocess_image_shape (cv := FastCV) (flat 5 5 (255, 255, 255)) 5 5
           (flat 5 5 0)).
  - apply FastCV_spec.
  - apply FastCV_blur.
  - split; [reflexivity|]. repeat constructor.
  - vm_compute. reflexivity.
Defined.

(** ** What [preprocess_card] stores *)

Lemma preprocess_card_inv `{cv : OpenCV} (cnt : Contour) (image : Frame)
    (q : Query_card) :
  preprocess_card cnt image = Ok q →
  let pts := approxPolyDP cnt (0.01 * arcLength cnt true)%Q true in
  pts ≠ [] ∧ contour q = cnt ∧ corner_pts q = pts ∧
  width q = (boundingRect cnt).1.2 ∧ height q = (boundingRect cnt).2 ∧
  center q = [Z.quot (foldr Z.add 0 (map fst pts)) (Z.of_nat (length pts));
              Z.quot (foldr Z.add 0 (map snd pts)) (Z.of_nat (length pts))] ∧
  (∃ warped qt sized,
     flattener image pts (boundingRect cnt).1.2 (boundingRect cnt).2 = Ok warped ∧
     warp q = warped ∧ query_thresh warped = Ok qt ∧
     Qsuit_sized qt = Ok sized ∧ suit_img q = default [] sized) ∧
  best_suit_match q = "Unknown"%string ∧ suit_diff q = 0.
Proof.
  intros Hrun pts. unfold preprocess_card, preprocess_card_body in Hrun.
  fold pts in Hrun.
  destruct (boundingRect cnt) as [[[x y] w] h]. cbn [fst snd].
  unfold mbind, St_bind, modify, lift, gets in Hrun.
  case_decide as Hlen; [done|].
  destruct (flattener image pts w h) as [warped|e] eqn:Hflat; [|done].
  cbn [warp set_warp] in Hrun.
  destruct (query_thresh warped) as [qt|e] eqn:Hqt; [|done].
  destruct (Qsuit_sized qt) as [sized|e] eqn:Hsized; [|done].
  assert (Hne : pts ≠ []) by (by intros Heq; rewrite Heq in Hlen).
  destruct sized as [g|]; inversion Hrun; subst q;
    cbn [contour corner_pts warp suit_img best_suit_match suit_diff center
         width height set_suit_img set_warp set_center set_width_height
         set_corner_pts set_contour Query_card_init];
    (split; [done|]); (split; [done|]); (split; [done|]); (split; [done|]);
    (split; [done|]); (split; [done|]); (split; [|done]);
    eexists warped, qt, _; (split; [done|]); (split; [done|]); (split; [done|]);
    (split; [exact Hsized | done]).
Qed.

Lemma sum_bounds (l : list Z) (lo hi : Z) :
  Forall (λ v, lo ≤ v ≤ hi) l →
  Z.of_nat (length l) * lo ≤ foldr Z.add 0 l ≤ Z.of_nat (length l) * hi.
Proof.
  induction 1 as [|v l Hv _ IH]; cbn [length foldr]; [lia|].
  rewrite Nat2Z.inj_succ. lia.
Qed.

(** The truncated mean of integers lies between any bounds they all
    satisfy. *)
Lemma quot_mean_bounds (l : list Z) (lo hi : Z) :
  l ≠ [] → Forall (λ v, lo ≤ v ≤ hi) l →
  lo ≤ Z.quot (foldr Z.add 0 l) (Z.of_nat (length l)) ≤ hi.
Proof.
  intros Hne Hl. pose proof (sum_bounds l lo hi Hl) as Hs.
  assert (Hn : 0 < Z.of_nat (length l)) by (destruct l; [done | simpl; lia]).
  set (n := Z.of_nat (length l)) in *. set (s := foldr Z.add 0 l) in *.
  pose proof (Z.quot_rem' s n) as Hqr.
  destruct (Z.le_ge_cases 0 s) as [Hpos|Hneg].
  - pose proof (Z.rem_bound_pos s n Hpos Hn). nia.
  - pose proof (Z.rem_bound_pos_neg s n Hn Hneg). nia.
Qed.

(** X14: the center [preprocess_card] stores has exactly two entries,
    and each lies within the range its coordinate takes over the stored
    corner points. *)
Theorem preprocess_card_center `{cv : OpenCV} (cnt : Contour) (image : Frame)
    (qCard : Query_card) :
  preprocess_card cnt image = Ok qCard →
  ∃ cent_x cent_y,
    center qCard = [cent_x; cent_y] ∧
    (∀ lo hi, Forall (λ p : Pt, lo ≤ p.1 ≤ hi) (corner_pts qCard) →
              lo ≤ cent_x ≤ hi) ∧
    (∀ lo hi, Forall (λ p : Pt, lo ≤ p.2 ≤ hi) (corner_pts qCard) →
              lo ≤ cent_y ≤ hi).
Proof.
  intros Hrun.
  destruct (preprocess_card_inv cnt image qCard Hrun)
    as (Hne & _ & Hpts & _ & _ & Hcen & _).
  rewrite Hpts, Hcen. eexists _, _. split; [reflexivity|].
  set (pts := approxPolyDP cnt (0.01 * arcLength cnt true)%Q true) in *.
  split; intros lo hi Hall.
  - rewrite <- (length_map fst pts). apply quot_mean_bounds.
    + by destruct pts.
    + by apply Forall_map.
  - rewrite <- (length_map snd pts). apply quot_mean_bounds.
    + by destruct pts.
    + by apply Forall_map.
Qed.

Lemma the_card_run (r : res Query_card) :
  returned r = true → r = Ok (the_card r).
Proof. by destruct r. Qed.

Lemma sample_card_run :
  preprocess_card (cv := FastCV) card_contour patch_frame = Ok sample_card.
Proof. apply the_card_run. lazy. reflexivity. Qed.

Lemma preprocess_card_center_witness :
  ∃ cent_x cent_y,
    center sample_card = [cent_x; cent_y] ∧
    (∀ lo hi, Forall (λ p : Pt, lo ≤ p.1 ≤ hi) (corner_pts sample_card) →
              lo ≤ cent_x ≤ hi) ∧
    (∀ lo hi, Forall (λ p : Pt, lo ≤ p.2 ≤ hi) (corner_pts sample_card) →
              lo ≤ cent_y ≤ hi).
Proof.
  apply (preprocess_card_center (cv := FastCV) card_contour patch_frame sample_card).
  apply sample_card_run.
Defined.

(** ** [draw_results] *)

(** X15: [draw_results] raises [IndexError] on a card whose center has
    fewer than two entries, such as a fresh [Query_card()], and returns
    on every other card. *)
Theorem draw_results_needs_center `{Drawing} (image : Frame) (qCard : Query_card) :
  ((length (center qCard) < 2)%nat → draw_results image qCard = Raise IndexError) ∧
  ((2 ≤ length (center qCard))%nat → is_Ok (draw_results image qCard)) ∧
  draw_results image Query_card_init = Raise IndexError.
Proof.
  unfold draw_results, getitem. split; [|split; [|reflexivity]].
  - intros Hlen. destruct (center qCard) as [|x [|y l]]; simpl in *; [done | done | lia].
  - intros Hlen. destruct (center qCard) as [|x [|y l]]; simpl in *; [lia | lia | done].
Qed.

(** X16: a card that [preprocess_card] returned can be drawn, and the
    text drawn, twice at 60 left of and 25 below the center, is
    "Unknown": [preprocess_card] never sets the label and [match_card]
    does not store its answer in the card. *)
Theorem draw_results_after_preprocess `{cv : OpenCV} `{dr : Drawing}
    (cnt : Contour) (image canvas : Frame) (qCard : Query_card)
    (train_suits : list Train_suits) :
  preprocess_card cnt image = Ok qCard →
  ∃ x y,
    center qCard = [x; y] ∧
    draw_results canvas (match_card qCard train_suits).2
      = Ok (putText
              (putText (circle canvas (x, y) 5 (255, 0, 0) (-1))
                 "Unknown" (x - 60, y + 25) font 1 (0, 0, 0) 3 LINE_AA)
              "Unknown" (x - 60, y + 25) font 1 (50, 200, 200) 2 LINE_AA).
Proof.
  intros Hrun.
  destruct (preprocess_card_inv cnt image qCard Hrun)
    as (_ & _ & _ & _ & _ & Hcen & _ & Hlabel & _).
  eexists _, _. split; [exact Hcen|].
  unfold match_card. rewrite (read_only_match_card_body train_suits qCard).
  unfold draw_results, getitem. rewrite Hcen, Hlabel. reflexivity.
Qed.

Lemma draw_results_after_preprocess_witness :
  ∃ x y,
    center sample_card = [x; y] ∧
    draw_results (H := no_drawing) patch_frame
      (match_card sample_card near_blank_suits).2
      = Ok (putText (Drawing := no_drawing)
              (putText (Drawing := no_drawing)
                 (circle (Drawing := no_drawing) patch_frame (x, y) 5 (255, 0, 0) (-1))
                 "Unknown" (x - 60, y + 25) font 1 (0, 0, 0) 3 LINE_AA)
              "Unknown" (x - 60, y + 25) font 1 (50, 200, 200) 2 LINE_AA).
Proof.
  apply (draw_results_after_preprocess (cv := FastCV) (dr := no_drawing)
           card_contour patch_frame patch_frame sample_card near_blank_suits).
  apply sample_card_run.
Defined.

(** ** The suit band *)

Lemma sorted_reverse_head {A} (key : A → Q) (l : list A) c cs :
  sorted_reverse key l = c :: cs →
  c ∈ l ∧ ∀ c', c' ∈ l → (key c' <= key c)%Q.
Proof.
  revert c cs. induction l as [|x l IH]; intros c cs Hs; [done|].
  unfold sorted_reverse in Hs. cbn [foldr] in Hs.
  fold (sorted_reverse key l) in Hs.
  destruct (sorted_reverse key l) as [|y s] eqn:Hl.
  - assert (l = []) as ->.
    { apply Permutation_nil_r. rewrite <- Hl. symmetry. apply sorted_reverse_perm. }
    inversion Hs; subst. split; [apply list_elem_of_here|].
    intros c' Hc'. apply list_elem_of_singleton in Hc' as ->. apply Qle_refl.
  - destruct (IH y s eq_refl) as [Hy Hmax]. cbn [insert_desc] in Hs.
    destruct (Qle_bool (key y) (key x)) eqn:Hle.
    + apply Qle_bool_iff in Hle. inversion Hs; subst.
      split; [apply list_elem_of_here|]. intros c' Hc'.
      apply elem_of_cons in Hc' as [->|Hc']; [apply Qle_refl|].
      eapply Qle_trans; [by apply Hmax | exact Hle].
    + assert (Hlt : (key x < key y)%Q).
      { apply Qnot_le_lt. intros Hc. apply Qle_bool_iff in Hc. congruence. }
      inversion Hs; subst. split; [by apply list_elem_of_further|].
      intros c' Hc'. apply elem_of_cons in Hc' as [->|Hc'];
        [by apply Qlt_le_weak | by apply Hmax].
Qed.

(** X17: the glyph is empty exactly when the suit band holds no
    contour; otherwise it is the bounding rectangle of a contour of
    greatest area, cut out of the band and resized to 70x100. *)
Theorem Qsuit_sized_largest `{cv : OpenCV} (qt : Gray) :
  OpenCVSpec cv → rect 336 128 qt →
  ((findContours (slice2 186 336 0 128 qt)).1 = [] → Qsuit_sized qt = Ok None) ∧
  ((findContours (slice2 186 336 0 128 qt)).1 ≠ [] →
   ∃ c g,
     c ∈ (findContours (slice2 186 336 0 128 qt)).1 ∧
     (∀ c', c' ∈ (findContours (slice2 186 336 0 128 qt)).1 →
            (contourArea c' <= contourArea c)%Q) ∧
     resize_to (crop (slice2 186 336 0 128 qt) (boundingRect c))
       (SUIT_WIDTH, SUIT_HEIGHT) = Ok g ∧
     Qsuit_sized qt = Ok (Some g) ∧ rect 100 70 g).
Proof.
  intros Hcv Hqt.
  pose proof (rect_slice2 qt _ _ 186 336 0 128 Hqt ltac:(lia) ltac:(lia)) as Hs.
  change (336 - 186)%nat with 150%nat in Hs.
  change (128 - 0)%nat with 128%nat in Hs.
  unfold Qsuit_sized.
  set (Qsuit := slice2 186 336 0 128 qt) in *.
  pose proof (boundingRect_inside cv Hcv Qsuit) as Hin.
  destruct (findContours Qsuit) as [cnts hier]. cbn [fst] in *.
  split.
  - intros ->. reflexivity.
  - intros Hne.
    destruct (sorted_reverse contourArea cnts) as [|c cs] eqn:Hsort.
    { exfalso. apply Hne, Permutation_nil_r. rewrite <- Hsort. symmetry.
      apply sorted_reverse_perm. }
    destruct (sorted_reverse_head contourArea cnts c cs Hsort) as [Hc Hmax].
    rewrite decide_True by done.
    specialize (Hin c _ _ Hs Hc).
    unfold getitem. cbn [lookup list_lookup mbind res_bind].
    destruct (boundingRect c) as [[[x2 y2] w2] h2] eqn:Hbr.
    destruct Hin as (Hx & Hy & Hw & Hh & Hxw & Hyh).
    pose proof (rect_slice2 Qsuit _ _ (Z.to_nat y2) (Z.to_nat (y2 + h2))
                  (Z.to_nat x2) (Z.to_nat (x2 + w2)) Hs ltac:(lia) ltac:(lia)) as Hroi.
    destruct (resize_to_rect cv Hcv _ SUIT_WIDTH SUIT_HEIGHT _ _ Hroi)
      as (sized & Hsized & Hrect); try (unfold SUIT_WIDTH, SUIT_HEIGHT; lia).
    exists c, sized. unfold crop. rewrite Hbr, Hsized. cbn [mbind res_bind].
    split; [done|]. split; [done|]. split; [done|]. split; [done|]. exact Hrect.
Qed.

Lemma Qsuit_sized_largest_witness :
  ((RefCV.findContours (slice2 186 336 0 128 (flat 336 128 255))).1 = [] →
   Qsuit_sized (cv := RefCV.cv) (flat 336 128 255) = Ok None) ∧
  ((RefCV.findContours (slice2 186 336 0 128 (flat 336 128 255))).1 ≠ [] →
   ∃ c g,
     c ∈ (RefCV.findContours (slice2 186 336 0 128 (flat 336 128 255))).1 ∧
     (∀ c', c' ∈ (RefCV.findContours (slice2 186 336 0 128 (flat 336 128 255))).1 →
            (RefCV.contourArea c' <= RefCV.contourArea c)%Q) ∧
     RefCV.resize_to
       (crop (slice2 186 336 0 128 (flat 336 128 255)) (RefCV.boundingRect c))
       (SUIT_WIDTH, SUIT_HEIGHT) = Ok g ∧
     Qsuit_sized (cv := RefCV.cv) (flat 336 128 255) = Ok (Some g) ∧ rect 100 70 g).
Proof.
  apply (Qsuit_sized_largest (cv := RefCV.cv) (flat 336 128 255)).
  - apply RefCV_spec.
  - split; [reflexivity|]. unfold flat. apply Forall_replicate. reflexivity.
Defined.

(** ** The isolator *)

Lemma flattener_ok_rect `{cv : OpenCV} (image : Frame) pts w h warped :
  OpenCVSpec cv → flattener image pts w h = Ok warped →
  rect maxHeight maxWidth warped.
Proof.
  intros Hcv. unfold flattener. destruct (temp_rect pts w h); [|done].
  cbn [mbind res_bind]. intros [= <-].
  apply (cvtColor_rect cv Hcv), (warpPerspective_rect cv Hcv).
Qed.

Lemma isolate_suit_band_rect `{cv : OpenCV} (ct g : Gray) :
  OpenCVSpec cv → rect 336 128 ct → isolate_suit_band ct = Ok g →
  rect SUIT_HEIGHT SUIT_WIDTH g.
Proof.
  intros Hcv Hct.
  pose proof (rect_slice2 ct _ _ 186 336 0 128 Hct ltac:(lia) ltac:(lia)) as Hs.
  change (336 - 186)%nat with 150%nat in Hs.
  change (128 - 0)%nat with 128%nat in Hs.
  unfold isolate_suit_band.
  set (suit := slice2 186 336 0 128 ct) in *.
  pose proof (boundingRect_inside cv Hcv suit) as Hin.
  destruct (findContours suit) as [cnts hier]. cbn [fst] in *.
  destruct (sorted_reverse contourArea cnts) as [|c cs] eqn:Hsort; [done|].
  destruct (sorted_reverse_head contourArea cnts c cs Hsort) as [Hc _].
  specialize (Hin c _ _ Hs Hc).
  unfold getitem. cbn [lookup list_lookup mbind res_bind].
  destruct (boundingRect c) as [[[x y] w] h].
  destruct Hin as (Hx & Hy & Hw & Hh & Hxw & Hyh).
  pose proof (rect_slice2 suit _ _ (Z.to_nat y) (Z.to_nat (y + h))
                (Z.to_nat x) (Z.to_nat (x + w)) Hs ltac:(lia) ltac:(lia)) as Hroi.
  destruct (resize_to_rect cv Hcv _ SUIT_WIDTH SUIT_HEIGHT _ _ Hroi)
    as (sized & Hsized & Hrect); try (unfold SUIT_WIDTH, SUIT_HEIGHT; lia).
  rewrite Hsized. by intros [= <-].
Qed.

(** X18: where [preprocess_card] answers an empty suit band with an
    empty glyph, the isolator indexes the empty contour list and raises
    [IndexError]. *)
Theorem isolate_suit_band_unguarded `{cv : OpenCV} (corner_thresh : Gray) :
  (findContours (slice2 186 336 0 128 corner_thresh)).1 = [] →
  isolate_suit_band corner_thresh = Raise IndexError ∧
  Qsuit_sized corner_thresh = Ok None.
Proof.
  intros Hnone. unfold isolate_suit_band, Qsuit_sized.
  destruct (findContours (slice2 186 336 0 128 corner_thresh)) as [cnts hier].
  simpl in Hnone. subst cnts. split; reflexivity.
Qed.

Lemma isolate_suit_band_unguarded_witness :
  isolate_suit_band (cv := RefCV.cv) (flat 336 128 0) = Raise IndexError ∧
  Qsuit_sized (cv := RefCV.cv) (flat 336 128 0) = Ok None.
Proof.
  apply (isolate_suit_band_unguarded (cv := RefCV.cv) (flat 336 128 0)).
  vm_compute. reflexivity.
Defined.

(** X19: for one frame the isolator quits exactly when the frame,
    thresholded at 100, holds no contour; in every other case it ends
    with an image or with an exception. *)
Theorem isolate_quits_iff `{cv : OpenCV} (image : Frame) :
  isolate image = Ok None ↔
  (findContours (threshold (GaussianBlur (cvtColor image)) 100 255 THRESH_BINARY)).1
    = [].
Proof.
  unfold isolate.
  destruct (findContours (threshold (GaussianBlur (cvtColor image)) 100 255
                            THRESH_BINARY)) as [cnts hier]. cbn [fst].
  split.
  - intros Hrun. case_decide as Hlen.
    + apply Permutation_nil_r. rewrite <- (nil_length_inv _ Hlen). symmetry.
      apply sorted_reverse_perm.
    + exfalso. revert Hrun.
      destruct (getitem (sorted_reverse contourArea cnts) 0) as [card|e]; [|done].
      cbn [mbind res_bind]. destruct (boundingRect card) as [[[x y] w] h].
      destruct (flattener image _ w h) as [warped|e]; [|done].
      cbn [mbind res_bind].
      destruct (resize_by (slice2 0 84 0 32 warped) 4 4) as [zoom|e]; [|done].
      cbn [mbind res_bind].
      by destruct (isolate_suit_band _).
  - intros ->. reflexivity.
Qed.

Lemma isolate_ok_rect `{cv : OpenCV} (image : Frame) (final_img : Gray) :
  OpenCVSpec cv → blur_keeps_shape cv →
  isolate image = Ok (Some final_img) → rect SUIT_HEIGHT SUIT_WIDTH final_img.
Proof.
  intros Hcv Hblur. unfold isolate.
  destruct (findContours _) as [cnts hier].
  case_decide as Hlen; [done|].
  destruct (getitem (sorted_reverse contourArea cnts) 0) as [card|e]; [|done].
  cbn [mbind res_bind]. destruct (boundingRect card) as [[[x y] w] h].
  destruct (flattener image _ w h) as [warped|e] eqn:Hflat; [|done].
  cbn [mbind res_bind].
  pose proof (flattener_ok_rect _ _ _ _ _ Hcv Hflat) as Hwarp.
  pose proof (rect_slice2 warped _ _ 0 84 0 32 Hwarp) as Hcorner.
  unfold maxHeight, maxWidth in Hcorner.
  specialize (Hcorner ltac:(lia) ltac:(lia)).
  change (84 - 0)%nat with 84%nat in Hcorner.
  change (32 - 0)%nat with 32%nat in Hcorner.
  destruct (resize_by_rect cv Hcv _ 4 4 _ _ Hcorner) as (zoom & Hzoom & Hz); try lia.
  change (4 * 84)%nat with 336%nat in Hz. change (4 * 32)%nat with 128%nat in Hz.
  rewrite Hzoom. cbn [mbind res_bind].
  destruct (isolate_suit_band _) as [g|e] eqn:Hband; [|done].
  cbn [mbind res_bind]. intros [= <-].
  eapply isolate_suit_band_rect; [exact Hcv | | exact Hband].
  apply (threshold_rect cv Hcv), Hblur, Hz.
Qed.

(** X20: an image the isolator produces is 70 wide and 100 high, the
    size of the glyphs [preprocess_card] makes, whatever the size of the
    frame it was cut from. *)
Theorem isolate_shape `{cv : OpenCV} (image : Frame) (final_img : Gray) :
  OpenCVSpec cv → blur_keeps_shape cv →
  isolate image = Ok (Some final_img) →
  shape final_img = (100%nat, 70%nat) ∧ rect 100 70 final_img.
Proof.
  intros Hcv Hblur Hrun.
  pose proof (isolate_ok_rect image final_img Hcv Hblur Hrun) as Hrect.
  split; [|exact Hrect].
  apply (shape_rect final_img SUIT_HEIGHT SUIT_WIDTH Hrect). unfold SUIT_HEIGHT. lia.
Qed.

Lemma the_image_run (r : res (option Gray)) :
  produced r = true → r = Ok (Some (the_image r)).
Proof. by destruct r as [[g|]|e]. Qed.

Lemma sample_template_run :
  isolate (cv := FastCV) patch_frame = Ok (Some sample_template).
Proof. apply the_image_run. lazy. reflexivity. Qed.

Lemma isolate_shape_witness :
  shape sample_template = (100%nat, 70%nat) ∧ rect 100 70 sample_template.
Proof.
  apply (isolate_shape (cv := FastCV) patch_frame sample_template).
  - apply FastCV_spec.
  - apply FastCV_blur.
  - apply sample_template_run.
Defined.

(** X21: templates made by the isolator fit the glyphs made by
    [preprocess_card]: against such templates [match_card] returns for
    every card [preprocess_card] returned. *)
Theorem match_card_isolated_templates `{cv : OpenCV} (cnt : Contour) (image : Frame)
    (qCard : Query_card) (train_suits : list Train_suits) :
  OpenCVSpec cv → blur_keeps_shape cv →
  preprocess_card cnt image = Ok qCard →
  Forall isolated train_suits →
  is_Ok (match_card qCard train_suits).1.
Proof.
  intros Hcv Hblur Hrun Hts.
  destruct (preprocess_card_inv cnt image qCard Hrun)
    as (_ & _ & _ & _ & _ & _ & (warped & qt & sized & Hflat & _ & Hqt & Hsized & Hsuit) & _).
  pose proof (flattener_ok_rect _ _ _ _ _ Hcv Hflat) as Hwarp.
  destruct (query_thresh_rect warped Hcv Hwarp) as (qt' & Hqt' & Hqtr).
  rewrite Hqt in Hqt'. inversion Hqt'; subst qt'.
  destruct (Qsuit_sized_rect qt Hcv Hqtr) as (sized' & Hsized' & Hsr).
  rewrite Hsized in Hsized'. inversion Hsized'; subst sized'.
  apply match_card_returns.
  - rewrite Hsuit. destruct sized as [g|]; [by right | by left].
  - eapply Forall_impl; [exact Hts|]. intros T (img & t & Hiso & Ht).
    exists t. split; [done|]. by eapply isolate_ok_rect.
Qed.

Lemma match_card_isolated_templates_witness :
  is_Ok (match_card sample_card [mkTrain_suits (Some sample_template) "Hearts"]).1.
Proof.
  apply (match_card_isolated_templates (cv := FastCV) card_contour patch_frame
           sample_card [mkTrain_suits (Some sample_template) "Hearts"]).
  - apply FastCV_spec.
  - apply FastCV_blur.
  - apply sample_card_run.
  - constructor; [|constructor].
    exists patch_frame, sample_template. split; [apply sample_template_run | done].
Defined.
